(** * PII redactor and compliance gate (src/privacy/pii_redactor.py)

    A shallow embedding of [PIIRedactor] and [ComplianceValidator]:
    Python strings are sequences of Unicode code points, the regular
    expressions of [PIIRedactor.PATTERNS] are run by a backtracking matcher
    with the semantics of Python's [re] module on the constructs these four
    patterns use, [str(data)] follows [repr] of dicts, lists and strings, and
    [hashlib.sha256] is SHA-256 of FIPS 180-4.

    Exceptions that the program's own operations raise on some value are
    part of the model ([str.encode] on a surrogate). Limits set by the
    interpreter rather than by the program (recursion depth, the cap on the
    digits of an int turned into text, memory) are outside it. *)

From Stdlib Require Import NArith ZArith Bool Ascii String List Lia.
From stdpp Require Import base option list gmap strings.

Local Open Scope N_scope.
Local Set Warnings "-register-all".

(** ** Python strings *)

(** A Python [str] is a sequence of code points (U+0000 .. U+10FFFF). *)
Abbreviation pystr := (list N).

(** The string literal [s] of the source, as a [str] (ASCII literals only). *)
Definition cps (s : string) : pystr :=
  List.map N_of_ascii (list_ascii_of_string s).

(** The interpreter's Unicode character database, consulted only for code
    points above U+007F; on ASCII the classifications are written out below.
    [uni_isdecimal] is Py_UNICODE_ISDECIMAL, [uni_isspace] Py_UNICODE_ISSPACE,
    [uni_isalnum] Py_UNICODE_ISALNUM and [uni_isprintable]
    Py_UNICODE_ISPRINTABLE. *)
Class UnicodeDB : Type := {
  uni_isdecimal : N -> bool;
  uni_isspace : N -> bool;
  uni_isalnum : N -> bool;
  uni_isprintable : N -> bool
}.

(** A database that classifies no code point above U+007F; enough to run
    the definitions on ASCII text. *)
Definition ascii_db : UnicodeDB :=
  {| uni_isdecimal := fun _ => false;
     uni_isspace := fun _ => false;
     uni_isalnum := fun _ => false;
     uni_isprintable := fun _ => false |}.

Definition between (lo hi c : N) : bool := (lo <=? c) && (c <=? hi).

Definition is_ascii (c : N) : bool := c <? 128.

(** ** The regular expressions of the source, and [re] on them *)

Module Re.

(** One element of a bracket expression, or a class escape. *)
Inductive citem : Type :=
| Chr (c : N)            (* a literal character *)
| Rng (lo hi : N)        (* lo-hi inside brackets *)
| Digit                  (* \d *)
| Space.                 (* \s *)

Definition charclass := list citem.

(** A pattern is a sequence of nodes: [\b], or a greedy repetition
    [cls{lo,hi}] of a single-character class ([hi = None]: unbounded). *)
Inductive node : Type :=
| Boundary
| Repeat (cl : charclass) (lo : nat) (hi : option nat).

Definition pattern := list node.

(** Class items and literals written with the characters of the source. *)
Definition chr (c : ascii) : citem := Chr (N_of_ascii c).
Definition rng (lo hi : ascii) : citem := Rng (N_of_ascii lo) (N_of_ascii hi).
Arguments chr c%_char.
Arguments rng (lo hi)%_char.

Definition Lit (c : ascii) : node := Repeat [chr c] 1 (Some 1%nat).
Arguments Lit c%_char.
Definition Opt (cl : charclass) : node := Repeat cl 0 (Some 1%nat).
Definition Exactly (n : nat) (cl : charclass) : node := Repeat cl n (Some n).
Definition AtLeast (n : nat) (cl : charclass) : node := Repeat cl n None.

Section Matcher.
Context {U : UnicodeDB}.

(** [\d], [\s] and [\w] of a str pattern (no re.ASCII flag). *)
Definition is_digit (c : N) : bool :=
  if is_ascii c then between 48 57 c else uni_isdecimal c.

Definition is_space (c : N) : bool :=
  if is_ascii c then between 9 13 c || between 28 32 c else uni_isspace c.

Definition is_word (c : N) : bool :=
  if is_ascii c
  then between 48 57 c || between 65 90 c || between 97 122 c || (c =? 95)
  else uni_isalnum c.

Definition in_citem (i : citem) (c : N) : bool :=
  match i with
  | Chr d => c =? d
  | Rng lo hi => between lo hi c
  | Digit => is_digit c
  | Space => is_space c
  end.

Definition in_class (cl : charclass) (c : N) : bool :=
  existsb (fun i => in_citem i c) cl.

(** [\b]: the characters on the two sides differ in being word characters;
    outside the string counts as a non-word character. *)
Definition word_before (prev : option N) : bool :=
  match prev with Some c => is_word c | None => false end.

Definition word_at (s : pystr) : bool :=
  match s with c :: _ => is_word c | [] => false end.

Definition at_boundary (prev : option N) (s : pystr) : bool :=
  xorb (word_before prev) (word_at s).

Definition may_take (hi : option nat) : bool :=
  match hi with Some O => false | _ => true end.

Definition dec_hi (hi : option nat) : option nat :=
  match hi with Some n => Some (Nat.pred n) | None => None end.

(** Greedy repetition with backtracking: take one more character when the
    class and the upper bound allow it and the rest of the pattern then
    matches; otherwise stop here, if the lower bound is met. [k] is the rest
    of the pattern; the result is the number of characters consumed. *)
Fixpoint rep (cl : charclass) (k : option N -> pystr -> option nat)
    (lo : nat) (hi : option nat) (prev : option N) (s : pystr) {struct s}
    : option nat :=
  let stop := match lo with O => k prev s | S _ => None end in
  match s with
  | c :: s' =>
      if may_take hi && in_class cl c then
        match rep cl k (Nat.pred lo) (dec_hi hi) (Some c) s' with
        | Some n => Some (S n)
        | None => stop
        end
      else stop
  | [] => stop
  end.

(** Match [p] at the start of [s], [prev] being the character before it. *)
Fixpoint match_here (p : pattern) : option N -> pystr -> option nat :=
  match p with
  | [] => fun _ _ => Some O
  | Boundary :: p' => fun prev s =>
      if at_boundary prev s then match_here p' prev s else None
  | Repeat cl lo hi :: p' => rep cl (match_here p') lo hi
  end.

(** [re.search]: the leftmost start position with a match, as
    (start offset, length). *)
Fixpoint search_from (p : pattern) (prev : option N) (s : pystr)
    : option (nat * nat) :=
  match match_here p prev s with
  | Some n => Some (O, n)
  | None =>
      match s with
      | [] => None
      | c :: s' =>
          match search_from p (Some c) s' with
          | Some (i, n) => Some (S i, n)
          | None => None
          end
      end
  end.

Definition search (p : pattern) (s : pystr) : option (nat * nat) :=
  search_from p None s.

(** [re.findall] and [re.sub] scan left to right over non-overlapping
    matches; [skip] counts the characters of the current match still to be
    passed over. The four patterns never match the empty string
    ([match_here_nonempty] below), so the treatment of empty matches by [re]
    does not arise: a match of length zero is not taken. *)
Fixpoint findall_from (p : pattern) (prev : option N) (s : pystr) (skip : nat)
    {struct s} : list pystr :=
  match skip with
  | S k =>
      match s with
      | [] => []
      | c :: s' => findall_from p (Some c) s' k
      end
  | O =>
      match match_here p prev s with
      | Some (S n) =>
          firstn (S n) s ::
          match s with
          | [] => []
          | c :: s' => findall_from p (Some c) s' n
          end
      | _ =>
          match s with
          | [] => []
          | c :: s' => findall_from p (Some c) s' O
          end
      end
  end.

Definition findall (p : pattern) (s : pystr) : list pystr :=
  findall_from p None s O.

Fixpoint sub_from (p : pattern) (repl : pystr) (prev : option N) (s : pystr)
    (skip : nat) {struct s} : pystr :=
  match skip with
  | S k =>
      match s with
      | [] => []
      | c :: s' => sub_from p repl (Some c) s' k
      end
  | O =>
      match match_here p prev s with
      | Some (S n) =>
          repl ++
          match s with
          | [] => []
          | c :: s' => sub_from p repl (Some c) s' n
          end
      | _ =>
          match s with
          | [] => []
          | c :: s' => c :: sub_from p repl (Some c) s' O
          end
      end
  end.

Definition sub (p : pattern) (repl : pystr) (s : pystr) : pystr :=
  sub_from p repl None s O.

End Matcher.
End Re.

Import Re.

(** ** PIIRedactor *)

(** [PATTERNS], in the order of the dict literal (dicts keep insertion
    order, and [_redact_string], [detect_pii] and [get_pii_report] all
    iterate [PATTERNS.items()]). *)
Definition ssn_pattern : pattern :=
  (* \b\d{3}-\d{2}-\d{4}\b *)
  [Boundary; Exactly 3 [Digit]; Lit "-"; Exactly 2 [Digit]; Lit "-";
   Exactly 4 [Digit]; Boundary].

Definition credit_card_pattern : pattern :=
  (* \b\d{4}[-\s]?\d{4}[-\s]?\d{4}[-\s]?\d{4}\b *)
  [Boundary; Exactly 4 [Digit]; Opt [chr "-"; Space];
   Exactly 4 [Digit]; Opt [chr "-"; Space];
   Exactly 4 [Digit]; Opt [chr "-"; Space];
   Exactly 4 [Digit]; Boundary].

Definition email_pattern : pattern :=
  (* \b[a-zA-Z0-9._%+-]+@[a-zA-Z0-9.-]+\.[a-zA-Z]{2,}\b *)
  [Boundary;
   AtLeast 1 [rng "a" "z"; rng "A" "Z"; rng "0" "9";
              chr "."; chr "_"; chr "%"; chr "+"; chr "-"];
   Lit "@";
   AtLeast 1 [rng "a" "z"; rng "A" "Z"; rng "0" "9"; chr "."; chr "-"];
   Lit ".";
   AtLeast 2 [rng "a" "z"; rng "A" "Z"];
   Boundary].

Definition phone_pattern : pattern :=
  (* \(?\d{3}\)?[-.\s]?\d{3}[-.\s]?\d{4}\b *)
  [Opt [chr "("]; Exactly 3 [Digit]; Opt [chr ")"];
   Opt [chr "-"; chr "."; Space];
   Exactly 3 [Digit]; Opt [chr "-"; chr "."; Space];
   Exactly 4 [Digit]; Boundary].

Definition PATTERNS : list (pystr * pattern) :=
  [(cps "ssn", ssn_pattern);
   (cps "credit_card", credit_card_pattern);
   (cps "email", email_pattern);
   (cps "phone", phone_pattern)].

Definition REPLACEMENTS : list (pystr * pystr) :=
  [(cps "ssn", cps "[REDACTED_SSN]");
   (cps "credit_card", cps "[REDACTED_CC]");
   (cps "email", cps "[REDACTED_EMAIL]");
   (cps "phone", cps "[REDACTED_PHONE]")].

(** ** Values *)

(** The data handed to the redactor: [str], [dict] (string keys, in
    insertion order, each key once), [list], and the objects [redact] does not
    look into. [VOther r] is any other object (a float, a tuple, ...), known
    here by the text [r] that [repr] renders for it. *)
Inductive value : Type :=
| VStr (s : pystr)
| VDict (items : list (pystr * value))
| VList (elems : list value)
| VInt (z : Z)
| VBool (b : bool)
| VNone
| VOther (r : pystr).

Section ValueInd.
Variable P : value -> Prop.
Hypothesis HStr : forall s, P (VStr s).
Hypothesis HDict : forall items, Forall (fun kv => P (snd kv)) items -> P (VDict items).
Hypothesis HList : forall elems, Forall P elems -> P (VList elems).
Hypothesis HInt : forall z, P (VInt z).
Hypothesis HBool : forall b, P (VBool b).
Hypothesis HNone : P VNone.
Hypothesis HOther : forall r, P (VOther r).

Fixpoint value_induction (v : value) : P v :=
  match v with
  | VStr s => HStr s
  | VDict items =>
      HDict items
        ((fix go (l : list (pystr * value)) : Forall (fun kv => P (snd kv)) l :=
            match l with
            | [] => List.Forall_nil _
            | kv :: l' => @List.Forall_cons _ _ kv l' (value_induction (snd kv)) (go l')
            end) items)
  | VList elems =>
      HList elems
        ((fix go (l : list value) : Forall P l :=
            match l with
            | [] => List.Forall_nil _
            | x :: l' => @List.Forall_cons _ _ x l' (value_induction x) (go l')
            end) elems)
  | VInt z => HInt z
  | VBool b => HBool b
  | VNone => HNone
  | VOther r => HOther r
  end.
End ValueInd.

(** ** [str] and [repr] *)

Definition hex_digit (n : N) : N :=
  if n <? 10 then 48 + n else 87 + n.

(** The [w] lowercase hexadecimal digits of [n], most significant first. *)
Fixpoint hex_digits (w : nat) (n : N) : pystr :=
  match w with
  | O => []
  | S w' => hex_digits w' (N.shiftr n 4) ++ [hex_digit (N.land n 15)]
  end.

Fixpoint uint_digits (u : Decimal.uint) : pystr :=
  match u with
  | Decimal.Nil => []
  | Decimal.D0 u' => 48 :: uint_digits u'
  | Decimal.D1 u' => 49 :: uint_digits u'
  | Decimal.D2 u' => 50 :: uint_digits u'
  | Decimal.D3 u' => 51 :: uint_digits u'
  | Decimal.D4 u' => 52 :: uint_digits u'
  | Decimal.D5 u' => 53 :: uint_digits u'
  | Decimal.D6 u' => 54 :: uint_digits u'
  | Decimal.D7 u' => 55 :: uint_digits u'
  | Decimal.D8 u' => 56 :: uint_digits u'
  | Decimal.D9 u' => 57 :: uint_digits u'
  end.

Definition repr_int (z : Z) : pystr :=
  match z with
  | Z0 => cps "0"
  | Zpos p => uint_digits (Pos.to_uint p)
  | Zneg p => 45 :: uint_digits (Pos.to_uint p)
  end.

(** [sep.join(parts)] *)
Fixpoint join (sep : pystr) (parts : list pystr) : pystr :=
  match parts with
  | [] => []
  | [x] => x
  | x :: rest => x ++ sep ++ join sep rest
  end.

Section Render.
Context {U : UnicodeDB}.

Definition printable (c : N) : bool :=
  if is_ascii c then between 32 126 c else uni_isprintable c.

(** [repr] of one character of a string quoted with [q]. *)
Definition repr_char (q c : N) : pystr :=
  if (c =? q) || (c =? 92) then [92; c]
  else if c =? 9 then cps "\t"
  else if c =? 10 then cps "\n"
  else if c =? 13 then cps "\r"
  else if printable c then [c]
  else if c <? 256 then cps "\x" ++ hex_digits 2 c
  else if c <? 65536 then cps "\u" ++ hex_digits 4 c
  else cps "\U" ++ hex_digits 8 c.

(** [repr(s)]: single quotes, unless [s] has a single quote and no double
    quote. *)
Definition repr_str (s : pystr) : pystr :=
  let q := if existsb (N.eqb 39) s && negb (existsb (N.eqb 34) s)
           then 34 else 39 in
  q :: flat_map (repr_char q) s ++ [q].

Fixpoint repr_value (v : value) : pystr :=
  match v with
  | VStr s => repr_str s
  | VDict items =>
      cps "{" ++
      join (cps ", ")
        (List.map (fun kv => repr_str (fst kv) ++ cps ": " ++ repr_value (snd kv))
           items) ++
      cps "}"
  | VList elems =>
      cps "[" ++ join (cps ", ") (List.map repr_value elems) ++ cps "]"
  | VInt z => repr_int z
  | VBool true => cps "True"
  | VBool false => cps "False"
  | VNone => cps "None"
  | VOther r => r
  end.

(** [str(data)]: a string is itself, anything else is its [repr]. *)
Definition str_value (v : value) : pystr :=
  match v with
  | VStr s => s
  | _ => repr_value v
  end.

End Render.

(** ** The redactor *)

(** [redact], [detect_pii] and [get_pii_report] read the class attributes
    [PATTERNS] and [REPLACEMENTS] only, never the state of the instance. *)

Section Redactor.
Context {U : UnicodeDB}.

(** [self.REPLACEMENTS[pii_type]]; every key of [PATTERNS] is a key of
    [REPLACEMENTS] ([REPLACEMENTS_defined]), so the lookup never misses. *)
Definition replacement_of (pii_type : pystr) : pystr :=
  match List.find (fun kv => bool_decide (fst kv = pii_type)) REPLACEMENTS with
  | Some kv => snd kv
  | None => []
  end.

Definition _redact_string (text : pystr) : pystr :=
  fold_left
    (fun text kv => sub (snd kv) (replacement_of (fst kv)) text)
    PATTERNS text.

Fixpoint redact (data : value) : value :=
  match data with
  | VStr s => VStr (_redact_string s)
  | VDict items => VDict (List.map (fun kv => (fst kv, redact (snd kv))) items)
  | VList elems => VList (List.map redact elems)
  | _ => data
  end.

(** [detect_pii] collects the types in a set and returns [list(detected)];
    the order of that list is not fixed by the source, here it is the order
    of [PATTERNS]. *)
Definition detect_pii (data : value) : list pystr :=
  let text := str_value data in
  List.map fst
    (List.filter (fun kv => bool_decide (is_Some (search (snd kv) text))) PATTERNS).

Definition validate_no_pii (data : value) : bool :=
  Nat.eqb (List.length (detect_pii data)) 0.

Record pii_detail : Type := {
  count : nat;
  examples : list pystr
}.

Record pii_report_t : Type := {
  pii_detected : bool;
  pii_types : list pystr;
  details : list (pystr * pii_detail)
}.

Definition get_pii_report (data : value) : pii_report_t :=
  let text := str_value data in
  let detected :=
    flat_map
      (fun kv =>
         let matches := findall (snd kv) text in
         match matches with
         | [] => []
         | _ => [(fst kv, {| count := List.length matches;
                             examples := firstn 3 matches |})]
         end)
      PATTERNS in
  {| pii_detected := Nat.ltb 0 (List.length detected);
     pii_types := List.map fst detected;
     details := detected |}.

(** ** ComplianceValidator *)

Record verdict : Type := {
  compliant : bool;
  issues : list pystr;
  pii_report : pii_report_t
}.

Definition validate_data_for_storage (data : value) : verdict :=
  let report := get_pii_report data in
  let issues :=
    if pii_detected report
    then [cps "PII detected: " ++ join (cps ", ") (pii_types report)]
    else [] in
  {| compliant := Nat.eqb (List.length issues) 0;
     issues := issues;
     pii_report := report |}.

End Redactor.

(** ** Exceptions *)

Inductive exn : Type :=
| UnicodeEncodeError.

Inductive result (A : Type) : Type :=
| Ok (a : A)
| Raise (e : exn).
Arguments Ok {A} a.
Arguments Raise {A} e.

(** ** [str.encode()]: UTF-8, errors='strict' *)

Definition is_surrogate (c : N) : bool := between 55296 57343 c.

(** The bytes of one code point; a surrogate (U+D800 .. U+DFFF) cannot be
    encoded and raises. *)
Definition utf8_char (c : N) : result (list N) :=
  if c <? 128 then Ok [c]
  else if c <? 2048 then Ok [192 + c / 64; 128 + c mod 64]
  else if is_surrogate c then Raise UnicodeEncodeError
  else if c <? 65536 then
    Ok [224 + c / 4096; 128 + (c / 64) mod 64; 128 + c mod 64]
  else
    Ok [240 + c / 262144; 128 + (c / 4096) mod 64;
        128 + (c / 64) mod 64; 128 + c mod 64].

Fixpoint str_encode (s : pystr) : result (list N) :=
  match s with
  | [] => Ok []
  | c :: s' =>
      match utf8_char c with
      | Raise e => Raise e
      | Ok bs =>
          match str_encode s' with
          | Raise e => Raise e
          | Ok rest => Ok (bs ++ rest)
          end
      end
  end.

(** ** [hashlib.sha256]: SHA-256 over a list of bytes (FIPS 180-4) *)

Module Sha256.

Definition wrap (x : N) : N := x mod 4294967296.
Definition plus (x y : N) : N := wrap (x + y).
Definition rotr (n x : N) : N :=
  N.lor (N.shiftr x n) (wrap (N.shiftl x (32 - n))).
Definition neg (x : N) : N := N.lxor x 4294967295.

Definition choose (x y z : N) : N := N.lxor (N.land x y) (N.land (neg x) z).
Definition majority (x y z : N) : N :=
  N.lxor (N.lxor (N.land x y) (N.land x z)) (N.land y z).
Definition big0 (x : N) : N := N.lxor (N.lxor (rotr 2 x) (rotr 13 x)) (rotr 22 x).
Definition big1 (x : N) : N := N.lxor (N.lxor (rotr 6 x) (rotr 11 x)) (rotr 25 x).
Definition small0 (x : N) : N := N.lxor (N.lxor (rotr 7 x) (rotr 18 x)) (N.shiftr x 3).
Definition small1 (x : N) : N := N.lxor (N.lxor (rotr 17 x) (rotr 19 x)) (N.shiftr x 10).

(** Round constants: the first 32 bits of the fractional parts of the cube
    roots of the first 64 primes. *)
Definition round_constants : list N :=
  [
   1116352408; 1899447441; 3049323471; 3921009573; 961987163; 1508970993;
   2453635748; 2870763221; 3624381080; 310598401; 607225278; 1426881987;
   1925078388; 2162078206; 2614888103; 3248222580; 3835390401; 4022224774;
   264347078; 604807628; 770255983; 1249150122; 1555081692; 1996064986;
   2554220882; 2821834349; 2952996808; 3210313671; 3336571891; 3584528711;
   113926993; 338241895; 666307205; 773529912; 1294757372; 1396182291;
   1695183700; 1986661051; 2177026350; 2456956037; 2730485921; 2820302411;
   3259730800; 3345764771; 3516065817; 3600352804; 4094571909; 275423344;
   430227734; 506948616; 659060556; 883997877; 958139571; 1322822218;
   1537002063; 1747873779; 1955562222; 2024104815; 2227730452; 2361852424;
   2428436474; 2756734187; 3204031479; 3329325298].

Record regs : Type := {
  ra : N; rb : N; rc : N; rd : N; re : N; rf : N; rg : N; rh : N
}.

Definition initial : regs :=
  {| ra := 1779033703; rb := 3144134277; rc := 1013904242; rd := 2773480762;
     re := 1359893119; rf := 2600822924; rg := 528734635; rh := 1541459225 |}.

(** The message schedule, newest word first: [extend n ws] adds [n] words
    to the 16 words of the block. *)
Fixpoint extend (n : nat) (ws : list N) : list N :=
  match n with
  | O => ws
  | S n' =>
      let w := plus (plus (small1 (nth 1 ws 0)) (nth 6 ws 0))
                    (plus (small0 (nth 14 ws 0)) (nth 15 ws 0)) in
      extend n' (w :: ws)
  end.

Definition schedule (block : list N) : list N :=
  rev (extend 48 (rev block)).

Definition round (r : regs) (kw : N * N) : regs :=
  let t1 := plus (plus (plus (rh r) (big1 (re r)))
                       (plus (choose (re r) (rf r) (rg r)) (fst kw))) (snd kw) in
  let t2 := plus (big0 (ra r)) (majority (ra r) (rb r) (rc r)) in
  {| ra := plus t1 t2; rb := ra r; rc := rb r; rd := rc r;
     re := plus (rd r) t1; rf := re r; rg := rf r; rh := rg r |}.

Definition compress (h : regs) (block : list N) : regs :=
  let r := fold_left round (combine round_constants (schedule block)) h in
  {| ra := plus (ra h) (ra r); rb := plus (rb h) (rb r);
     rc := plus (rc h) (rc r); rd := plus (rd h) (rd r);
     re := plus (re h) (re r); rf := plus (rf h) (rf r);
     rg := plus (rg h) (rg r); rh := plus (rh h) (rh r) |}.

(** Big-endian bytes of [n], [w] of them. *)
Fixpoint be_bytes (w : nat) (n : N) : list N :=
  match w with
  | O => []
  | S w' => be_bytes w' (n / 256) ++ [n mod 256]
  end.

(** Padding: a 1 bit, zeros up to 56 mod 64 bytes, the bit length on 64 bits. *)
Definition pad (msg : list N) : list N :=
  let l := List.length msg in
  msg ++ [128] ++ repeat 0 ((119 - l mod 64) mod 64)%nat
      ++ be_bytes 8 (8 * N.of_nat l).

Fixpoint words (bytes : list N) : list N :=
  match bytes with
  | b0 :: b1 :: b2 :: b3 :: rest =>
      (((b0 * 256 + b1) * 256 + b2) * 256 + b3) :: words rest
  | _ => []
  end.

(** Take the words in, compressing each time 16 of them are gathered. *)
Definition absorb (acc : regs * list N) (w : N) : regs * list N :=
  let buf := snd acc ++ [w] in
  if Nat.eqb (List.length buf) 16 then (compress (fst acc) buf, [])
  else (fst acc, buf).

Definition digest (msg : list N) : regs :=
  fst (fold_left absorb (words (pad msg)) (initial, [])).

Definition hexdigest (msg : list N) : pystr :=
  let r := digest msg in
  flat_map (hex_digits 8) [ra r; rb r; rc r; rd r; re r; rf r; rg r; rh r].

End Sha256.

(** ** The anonymizer *)

(** The state of a [PIIRedactor] instance. *)
Record PIIRedactor : Type := {
  anonymize_names : bool;
  _anonymization_cache : gmap pystr pystr
}.

(** [PIIRedactor(anonymize_names)] *)
Definition new_redactor (names : bool) : PIIRedactor :=
  {| anonymize_names := names; _anonymization_cache := ∅ |}.

(** [self.anonymize(identifier, category)]: the value returned or the
    exception raised, and the instance afterwards. *)
Definition anonymize (self : PIIRedactor) (identifier category : pystr)
    : result pystr * PIIRedactor :=
  let cache_key := category ++ cps ":" ++ identifier in
  match _anonymization_cache self !! cache_key with
  | Some cached => (Ok cached, self)
  | None =>
      match str_encode identifier with
      | Raise e => (Raise e, self)
      | Ok bytes =>
          let hash_hex := firstn 6 (Sha256.hexdigest bytes) in
          let anonymized := category ++ cps "_" ++ hash_hex in
          (Ok anonymized,
           {| anonymize_names := anonymize_names self;
              _anonymization_cache :=
                <[cache_key := anonymized]> (_anonymization_cache self) |})
      end
  end.

(** ** Vocabulary of the properties *)

(** The literal examples of each category that the test suite and the
    documentation list. *)
Definition known_corpus : list (pystr * pystr) :=
  [(cps "ssn", cps "123-45-6789");
   (cps "phone", cps "(555) 123-4567");
   (cps "phone", cps "555-123-4567");
   (cps "phone", cps "555.123.4567");
   (cps "phone", cps "5551234567");
   (cps "credit_card", cps "1234-5678-9012-3456");
   (cps "credit_card", cps "1234 5678 9012 3456");
   (cps "credit_card", cps "1234567890123456");
   (cps "email", cps "user@domain.com");
   (cps "email", cps "first.last@company.co.uk")].

(** Two values of the same shape: the same nesting, the same keys in the
    same order, the same number of elements, and the same leaf wherever the
    leaf is not a string. *)
Inductive same_shape : value -> value -> Prop :=
| shape_str s t : same_shape (VStr s) (VStr t)
| shape_dict items items' :
    List.map fst items = List.map fst items' ->
    Forall2 same_shape (List.map snd items) (List.map snd items') ->
    same_shape (VDict items) (VDict items')
| shape_list elems elems' :
    Forall2 same_shape elems elems' ->
    same_shape (VList elems) (VList elems')
| shape_int z : same_shape (VInt z) (VInt z)
| shape_bool b : same_shape (VBool b) (VBool b)
| shape_none : same_shape VNone VNone
| shape_other r : same_shape (VOther r) (VOther r).

(** [ok] holds of every string leaf of [v] (keys are not leaves). *)
Fixpoint all_leaves (ok : pystr -> bool) (v : value) : bool :=
  match v with
  | VStr s => ok s
  | VDict items => forallb (fun kv => all_leaves ok (snd kv)) items
  | VList elems => forallb (all_leaves ok) elems
  | _ => true
  end.

(** The keys of a dict, in order. *)
Definition keys (v : value) : list pystr :=
  match v with
  | VDict items => List.map fst items
  | _ => []
  end.

Definition is_hex_char (c : N) : bool := between 48 57 c || between 97 102 c.

(** [token] reads "{category}_{6 hex chars}". *)
Definition token_shape (category token : pystr) : Prop :=
  exists h, token = category ++ cps "_" ++ h
            /\ List.length h = 6%nat
            /\ forallb is_hex_char h = true.

(** A string that UTF-8 can encode: no code point is a surrogate. *)
Definition encodable (s : pystr) : bool :=
  forallb (fun c => negb (is_surrogate c)) s.

(** A lone high surrogate, as [json.loads] gives for the JSON text
    "\ud800". *)
Definition lone_surrogate : pystr := [55296].

Definition twenty_digits : pystr := cps "12345678901234567890".

(** The category has no colon, the separator of the cache key. *)
Definition colon_free (category : pystr) : bool :=
  forallb (fun c => negb (c =? 58)) category.

(** The instances that calls of [anonymize] with colon-free categories
    lead to, from a new one. *)
Inductive colon_free_run (names : bool) : PIIRedactor -> Prop :=
| run_new : colon_free_run names (new_redactor names)
| run_call self identifier category :
    colon_free_run names self ->
    colon_free category = true ->
    colon_free_run names (snd (anonymize self identifier category)).

(** A pattern that starts, after any [\b], with a repetition of at least
    one character matches no empty string. *)
Fixpoint consumes (p : pattern) : bool :=
  match p with
  | [] => false
  | Boundary :: p' => consumes p'
  | Repeat _ (S _) _ :: _ => true
  | Repeat _ O (Some (S O)) :: p' => consumes p'
  | Repeat _ O _ :: _ => false
  end.

(** The number of "[" in a string; every placeholder has one, no pattern
    matches one. *)
Definition brackets (s : pystr) : nat :=
  List.length (List.filter (N.eqb 91) s).

Section Vocabulary.
Context {U : UnicodeDB}.

(** No class of the pattern accepts "[". *)
Definition bracket_free (p : pattern) : bool :=
  forallb
    (fun nd =>
       match nd with
       | Boundary => true
       | Repeat cl _ _ => negb (in_class cl 91)
       end)
    p.

(** What the replacement loop relies on, for one entry of [PATTERNS]. *)
Definition marks_matches (kv : pystr * pattern) : Prop :=
  bracket_free (snd kv) = true
  /\ consumes (snd kv) = true
  /\ (0 < brackets (replacement_of (fst kv)))%nat.

(** No pattern is found in the string [s]. *)
Definition clean (s : pystr) : bool := validate_no_pii (VStr s).

End Vocabulary.

(** ** Subscripts *)

(** Errors of the operations below, as Python names them. *)
Inductive py_error : Type :=
| KeyError (key : pystr)
| TypeError
| JSONDecodeError.

Inductive checked (A : Type) : Type :=
| Done (a : A)
| Fail (e : py_error).
Arguments Done {A} a.
Arguments Fail {A} e.

(** [key in d] and [d[key]] on the items of a dict; [None] where the key is
    missing ([d[key]] raises KeyError, [d.get(key, default)] gives the
    default). *)
Fixpoint dict_get (items : list (pystr * value)) (key : pystr) : option value :=
  match items with
  | [] => None
  | (k, v) :: rest => if bool_decide (k = key) then Some v else dict_get rest key
  end.

(** [l[i]] on a list: a negative index counts from the end; [None] where
    Python raises IndexError. *)
Definition list_get (elems : list value) (i : Z) : option value :=
  let n := Z.of_nat (List.length elems) in
  let j := (if i <? 0 then i + n else i)%Z in
  if (j <? 0)%Z then None else nth_error elems (Z.to_nat j).

(** One subscript: a key of a dict or an index of a list. *)
Inductive subscript : Type :=
| Key (k : pystr)
| Index (i : Z).

(** [x[s1][s2]...] through dicts and lists; [None] when a key or an index
    is missing, or when the value reached is not a dict for a key or not a
    list for an index. *)
Fixpoint get_path (x : value) (path : list subscript) : option value :=
  match path with
  | [] => Some x
  | Key k :: rest =>
      match x with
      | VDict items =>
          match dict_get items k with
          | Some v => get_path v rest
          | None => None
          end
      | _ => None
      end
  | Index i :: rest =>
      match x with
      | VList elems =>
          match list_get elems i with
          | Some v => get_path v rest
          | None => None
          end
      | _ => None
      end
  end.

(** [m] occurs in [t] as a run of consecutive characters. *)
Definition substring (m t : pystr) : Prop := exists a b, t = a ++ m ++ b.

(** [a <= b] on str: lexicographic, by code point. *)
Fixpoint str_le (a b : pystr) : bool :=
  match a, b with
  | [], _ => true
  | _ :: _, [] => false
  | x :: a', y :: b' =>
      if x <? y then true else if y <? x then false else str_le a' b'
  end.

(** The truth value of an Optional[str] argument: None and the empty
    string are false. *)
Definition given (arg : option pystr) : option pystr :=
  match arg with
  | Some (c :: s) => Some (c :: s)
  | _ => None
  end.

(** ** FeedbackSignalCapture (src/feedback/signal_capture.py) *)

(** [args] is the tuple of positional arguments, [kwargs] the dict of
    keyword arguments. *)
Definition _extract_workflow_id
    (args : list value) (kwargs : list (pystr * value)) : value :=
  match dict_get kwargs (cps "workflow_id") with
  | Some v => v
  | None =>
      match args with
      | VDict items :: _ =>
          match dict_get items (cps "workflow_id") with
          | Some v => v
          | None => VStr (cps "unknown")
          end
      | _ => VStr (cps "unknown")
      end
  end.

Definition _extract_project_id
    (args : list value) (kwargs : list (pystr * value)) : value :=
  match dict_get kwargs (cps "project_id") with
  | Some v => v
  | None =>
      match args with
      | VDict items :: _ =>
          match dict_get items (cps "project_id") with
          | Some v => v
          | None => VStr (cps "unknown")
          end
      | _ => VStr (cps "unknown")
      end
  end.

Definition _get_model_version : pystr := cps "claude-3-5-sonnet-20241022-v2:0".

(** [d.get(key, "unknown")] *)
Definition get_or_unknown (items : list (pystr * value)) (key : pystr) : value :=
  match dict_get items key with
  | Some v => v
  | None => VStr (cps "unknown")
  end.

(** The signal that the wrapper of [capture_signal] builds after the call
    of the wrapped function returned [result]; [timestamp] is
    [datetime.utcnow().isoformat()]. *)
Definition wrapper_signal (signal_type timestamp : pystr)
    (args : list value) (kwargs : list (pystr * value)) (result : value) : value :=
  VDict [(cps "signal_type", VStr signal_type);
         (cps "timestamp", VStr timestamp);
         (cps "workflow_id", _extract_workflow_id args kwargs);
         (cps "project_id", _extract_project_id args kwargs);
         (cps "model_version", VStr _get_model_version);
         (cps "data", result)].

(** The signal that [capture_manual_signal] builds from the dict [data]. *)
Definition manual_signal (signal_type timestamp : pystr)
    (data : list (pystr * value)) : value :=
  VDict [(cps "signal_type", VStr signal_type);
         (cps "timestamp", VStr timestamp);
         (cps "workflow_id", get_or_unknown data (cps "workflow_id"));
         (cps "project_id", get_or_unknown data (cps "project_id"));
         (cps "model_version", VStr _get_model_version);
         (cps "data", VDict data)].

Section SignalCapture.
Context {U : UnicodeDB}.

(** [json.dumps] and [json.loads] of the standard library: the text of a
    value, or the TypeError of a value JSON cannot hold; the value of a
    text, or the JSONDecodeError of a text that is no JSON. *)
Variable json_dumps : value -> checked pystr.
Variable json_loads : pystr -> checked value.

(** The two substitutions of the fallback, on the JSON text. *)
Definition fallback_substitutions (signal_str : pystr) : pystr :=
  sub phone_pattern (cps "[REDACTED_PHONE]")
    (sub email_pattern (cps "[REDACTED_EMAIL]") signal_str).

(** [_redact_pii]: [importable] says whether the import of [PIIRedactor]
    succeeds; the fallback runs on ImportError. *)
Definition _redact_pii (importable : bool) (signal : value) : checked value :=
  if importable then Done (redact signal)
  else
    match json_dumps signal with
    | Fail e => Fail e
    | Done signal_str => json_loads (fallback_substitutions signal_str)
    end.

(** The object key of [_send_to_data_lake]:
    "signals/{signal_type}/{date}/{timestamp}.json", [date] being today's
    date as "%Y/%m/%d"; the two subscripts raise KeyError on a signal
    without the entry. *)
Definition data_lake_key (signal : list (pystr * value)) (date : pystr)
    : checked pystr :=
  match dict_get signal (cps "signal_type") with
  | None => Fail (KeyError (cps "signal_type"))
  | Some signal_type =>
      match dict_get signal (cps "timestamp") with
      | None => Fail (KeyError (cps "timestamp"))
      | Some timestamp =>
          Done (cps "signals/" ++ str_value signal_type ++ cps "/" ++ date
                ++ cps "/" ++ str_value timestamp ++ cps ".json")
      end
  end.

End SignalCapture.

(** ** ProvenanceTracker (src/provenance/tracker.py) *)

Definition decision_keys : list pystr :=
  [cps "total_cost"; cps "status"; cps "approved"; cps "recommended"].

Section Tracker.
Context {U : UnicodeDB}.

Definition _format_decision (func_name : pystr) (result : value) : pystr :=
  match result with
  | VDict items =>
      let summary :=
        List.filter (fun kv => bool_decide (fst kv ∈ decision_keys)) items in
      func_name ++ cps " decided: " ++ str_value (VDict summary)
  | _ => func_name ++ cps " returned: " ++ firstn 100 (str_value result)
  end.

(** [func_name] is [func.__name__]. *)
Definition _identify_data_sources (func_name : pystr)
    (args : list value) (kwargs : list (pystr * value)) : value :=
  VDict
    [(cps "function_signature",
      VStr (func_name ++ cps "(" ++
            join (cps ", ") (List.map (fun a => firstn 50 (str_value a)) args)
            ++ cps ")"));
     (cps "kwargs",
      VDict (List.map (fun kv => (fst kv, VStr (firstn 50 (str_value (snd kv)))))
               kwargs))].

End Tracker.

(** [p[key] == text] for a record [p] of the store: KeyError without the
    entry; a value that is not a str equals no str. ([VOther] stands for
    objects of built-in types here.) *)
Definition entry_equals (p : list (pystr * value)) (key text : pystr)
    : checked bool :=
  match dict_get p key with
  | None => Fail (KeyError key)
  | Some (VStr s) => Done (bool_decide (s = text))
  | Some _ => Done false
  end.

(** [p[key] >= text] ([at_least = true]) or [p[key] <= text]: KeyError
    without the entry, TypeError when the entry is not a str. *)
Definition entry_compares (at_least : bool) (p : list (pystr * value))
    (key text : pystr) : checked bool :=
  match dict_get p key with
  | None => Fail (KeyError key)
  | Some (VStr s) => Done (if at_least then str_le text s else str_le s text)
  | Some _ => Fail TypeError
  end.

(** [[p for p in results if test(p)]]: the first test that raises ends the
    comprehension. *)
Fixpoint keep_if (test : list (pystr * value) -> checked bool)
    (results : list (list (pystr * value)))
    : checked (list (list (pystr * value))) :=
  match results with
  | [] => Done []
  | p :: rest =>
      match test p with
      | Fail e => Fail e
      | Done b =>
          match keep_if test rest with
          | Fail e => Fail e
          | Done kept => Done (if b then p :: kept else kept)
          end
      end
  end.

(** [ProvenanceTracker.query], [provenance_store] being the list of the
    instance. *)
Definition query (provenance_store : list (list (pystr * value)))
    (workflow_id decision_type start_time end_time : option pystr)
    : checked (list (list (pystr * value))) :=
  let step1 :=
    match given decision_type with
    | Some d => keep_if (fun p => entry_equals p (cps "function") d) provenance_store
    | None => Done provenance_store
    end in
  let step2 :=
    match step1 with
    | Fail e => Fail e
    | Done results =>
        match given start_time with
        | Some t => keep_if (fun p => entry_compares true p (cps "timestamp") t) results
        | None => Done results
        end
    end in
  match step2 with
  | Fail e => Fail e
  | Done results =>
      match given end_time with
      | Some t => keep_if (fun p => entry_compares false p (cps "timestamp") t) results
      | None => Done results
      end
  end.

(** A record with a str under "function" and a str under "timestamp", as
    the wrapper of [track_decision] builds them. *)
Definition well_formed_record (p : list (pystr * value)) : Prop :=
  (exists f, dict_get p (cps "function") = Some (VStr f))
  /\ (exists t, dict_get p (cps "timestamp") = Some (VStr t)).

(** What the filters of [query] ask of a well-formed record. *)
Definition passes (decision_type start_time end_time : option pystr)
    (p : list (pystr * value)) : bool :=
  match given decision_type, dict_get p (cps "function") with
  | Some d, Some (VStr f) => bool_decide (f = d)
  | Some _, _ => false
  | None, _ => true
  end
  && match given start_time, dict_get p (cps "timestamp") with
     | Some t, Some (VStr s) => str_le t s
     | Some _, _ => false
     | None, _ => true
     end
  && match given end_time, dict_get p (cps "timestamp") with
     | Some t, Some (VStr s) => str_le s t
     | Some _, _ => false
     | None, _ => true
     end.

(** ** Plain text *)

Section PlainText.
Context {U : UnicodeDB}.

(** A decimal digit ([\d]) or "@". *)
Definition pii_char (c : N) : bool := is_digit c || (c =? 64).

(** A string with no decimal digit and no "@". *)
Definition plain (s : pystr) : bool := forallb (fun c => negb (pii_char c)) s.

(** The pattern has a repetition of one character at least whose class
    holds only characters that [q] accepts. *)
Definition demands (q : N -> bool) (p : pattern) : Prop :=
  Exists
    (fun nd =>
       match nd with
       | Repeat cl (S _) _ => forall c, in_class cl c = true -> q c = true
       | _ => False
       end)
    p.

End PlainText.

(** ** Card numbers *)

(** An ASCII decimal digit, and the ASCII characters that [\s] accepts. *)
Definition ascii_digit (c : N) : bool := between 48 57 c.

Definition ascii_space (c : N) : bool := between 9 13 c || between 28 32 c.

(** What [[-\s]] accepts below U+0080: "-" or a whitespace character. *)
Definition card_separator (c : N) : bool := (c =? 45) || ascii_space c.

(** Four ASCII digits at the start of [s]: what follows them. *)
Definition strip_group (s : pystr) : option pystr :=
  match s with
  | a :: b :: c :: d :: rest =>
      if ascii_digit a && ascii_digit b && ascii_digit c && ascii_digit d
      then Some rest else None
  | _ => None
  end.

(** [s] without the separator it may start with. *)
Definition strip_separator (s : pystr) : pystr :=
  match s with
  | c :: rest => if card_separator c then rest else s
  | [] => []
  end.

(** The whole of [s] is sixteen ASCII digits in four groups of four, with
    nothing or one separator between two groups: the shape that
    the credit_card pattern describes, as "1234-5678-9012-3456",
    "1234 5678 9012 3456" and "1234567890123456". *)
Definition card_shaped (s : pystr) : bool :=
  match strip_group s with
  | Some r1 =>
      match strip_group (strip_separator r1) with
      | Some r2 =>
          match strip_group (strip_separator r2) with
          | Some r3 =>
              match strip_group (strip_separator r3) with
              | Some [] => true
              | _ => false
              end
          | None => false
          end
      | None => false
      end
  | None => false
  end.

(** A card number of fifteen digits (a test number of American Express). *)
Definition fifteen_digits : pystr := cps "378282246310005".

(** One character for all ASCII digits and one for all ASCII whitespace:
    the four patterns tell neither the digits apart nor the whitespace
    characters. *)
Definition canon (c : N) : N :=
  if ascii_digit c then 48 else if ascii_space c then 32 else c.

Section Canonical.
Context {U : UnicodeDB}.

Definition canon_stable (f : N -> bool) : Prop := forall c, f (canon c) = f c.

Definition canon_pattern (p : pattern) : Prop :=
  Forall
    (fun nd =>
       match nd with
       | Boundary => True
       | Repeat cl _ _ => canon_stable (in_class cl)
       end)
    p.

End Canonical.

(** ** What a match is *)

(** The character before the position reached after [a], [prev] being the
    character before [a]. *)
Definition ending (prev : option N) (a : pystr) : option N :=
  fold_left (fun _ c => Some c) a prev.

Definition within (hi : option nat) (n : nat) : Prop :=
  match hi with Some h => (n <= h)%nat | None => True end.

(** The pattern starts with [\b]. *)
Definition opens (p : pattern) : bool :=
  match p with Boundary :: _ => true | _ => false end.

(** The pattern takes a character before it reaches any [\b]. *)
Fixpoint free_start (p : pattern) : bool :=
  match p with
  | [] => true
  | Boundary :: _ => false
  | Repeat _ (S _) _ :: _ => true
  | Repeat _ O _ :: p' => free_start p'
  end.

Section Semantics.
Context {U : UnicodeDB}.

(** [Matches p prev a r]: the pattern [p] matches exactly the text [a],
    when [prev] is the character before [a] and [r] the text after it. *)
Inductive Matches : pattern -> option N -> pystr -> pystr -> Prop :=
| matches_end prev r : Matches [] prev [] r
| matches_boundary p prev a r :
    at_boundary prev (a ++ r) = true ->
    Matches p prev a r ->
    Matches (Boundary :: p) prev a r
| matches_repeat cl lo hi p prev a b r :
    forallb (in_class cl) a = true ->
    (lo <= List.length a)%nat ->
    within hi (List.length a) ->
    Matches p (ending prev a) b r ->
    Matches (Repeat cl lo hi :: p) prev (a ++ b) r.

(** Some class of the pattern accepts [c]. *)
Definition accepts (p : pattern) (c : N) : bool :=
  existsb
    (fun nd =>
       match nd with
       | Boundary => false
       | Repeat cl _ _ => in_class cl c
       end)
    p.

(** The pattern ends with [\b]. *)
Definition closes (p : pattern) : Prop := exists p0, p = p0 ++ [Boundary].

(** What the four patterns have in common. *)
Record tame (p : pattern) : Prop := {
  tame_consumes : consumes p = true;
  tame_start : opens p = true \/ free_start p = true;
  tame_closes : closes p;
  tame_open_bracket : accepts p 91 = false;
  tame_close_bracket : accepts p 93 = false;
  tame_demands : demands pii_char p
}.

(** A placeholder: "[", text without digit or "@", "]". *)
Definition mark (repl : pystr) : Prop :=
  exists inner, repl = 91 :: inner ++ [93] /\ plain repl = true.

(** [P] holds at every position of [s] (the end included), of the
    character before the position and the text from it. *)
Fixpoint everywhere (P : option N -> pystr -> Prop) (prev : option N)
    (s : pystr) : Prop :=
  P prev s /\
  match s with
  | c :: s' => everywhere P (Some c) s'
  | [] => True
  end.

(** The phone pattern matches at this position, which is between two word
    characters: the number is glued to the word before it. *)
Definition glued_at (prev : option N) (s : pystr) : bool :=
  word_before prev && word_at s
  && bool_decide (is_Some (match_here phone_pattern prev s)).

Fixpoint glued_from (prev : option N) (s : pystr) : bool :=
  glued_at prev s
  || match s with
     | c :: s' => glued_from (Some c) s'
     | [] => false
     end.

(** No phone number of [s] is glued to a word character before it. *)
Definition unglued (s : pystr) : bool := negb (glued_from None s).

(** The text as it reaches the phone pattern, the last of the loop of
    [_redact_string]: after the substitutions of the patterns before it. *)
Definition reaches_phone (text : pystr) : pystr :=
  fold_left
    (fun text kv => sub (snd kv) (replacement_of (fst kv)) text)
    (firstn 3 PATTERNS) text.

(** The position after [prevo] in the output stands for the position after
    [prev] in the input, before the text [s]: a word character on both
    sides or on neither, or one before the input position only, and none
    after it. *)
Definition stands_for (prevo prev : option N) (s : pystr) : Prop :=
  word_before prevo = word_before prev
  \/ (word_before prevo = false /\ word_at s = false).

(** The pattern [q] matches at a position that the guard [G] selects by
    the word characters on its two sides. *)
Definition found (q : pattern) (G : bool -> bool -> bool)
    (prev : option N) (s : pystr) : Prop :=
  G (word_before prev) (word_at s) = true /\ is_Some (match_here q prev s).

(** [Cut P repl prev s o]: [o] is [s] with some pieces replaced by [repl].
    [P] holds where a character is kept; a replaced piece starts at a word
    boundary if a word character precedes it, and ends at a word
    boundary. *)
Inductive Cut (P : option N -> pystr -> Prop) (repl : pystr)
    : option N -> pystr -> pystr -> Prop :=
| cut_end prev : Cut P repl prev [] []
| cut_keep prev c s o :
    P prev (c :: s) ->
    Cut P repl (Some c) s o ->
    Cut P repl prev (c :: s) (c :: o)
| cut_replace prev m s o :
    m <> [] ->
    (word_before prev = true -> word_at m = false) ->
    at_boundary (ending prev m) s = true ->
    Cut P repl (ending prev m) s o ->
    Cut P repl prev (m ++ s) (repl ++ o).

End Semantics.

(** ** The matcher *)

Section MatcherFacts.
Context {U : UnicodeDB}.

Lemma rep_positive cl k lo hi prev s n :
  rep cl k (S lo) hi prev s = Some n -> (0 < n)%nat.
Proof.
  destruct s as [|c s]; simpl; [discriminate|].
  destruct (may_take hi && in_class cl c); [|discriminate].
  destruct (rep cl k lo (dec_hi hi) (Some c) s); [|discriminate].
  intros [= <-]. lia.
Qed.

Lemma rep_optional cl k prev s n :
  (forall prev' s' m, k prev' s' = Some m -> (0 < m)%nat) ->
  rep cl k 0 (Some 1%nat) prev s = Some n -> (0 < n)%nat.
Proof.
  intros Hk. destruct s as [|c s]; simpl; [apply Hk|].
  destruct (in_class cl c).
  - destruct s as [|d s]; simpl.
    + destruct (k (Some c) []); [intros [= <-]; lia | apply Hk].
    + destruct (k (Some c) (d :: s)); [intros [= <-]; lia | apply Hk].
  - apply Hk.
Qed.

Lemma match_here_nonempty p :
  consumes p = true ->
  forall prev s n, match_here p prev s = Some n -> (0 < n)%nat.
Proof.
  induction p as [|nd p IH]; simpl; [discriminate|].
  destruct nd as [|cl lo hi].
  - intros Hc prev s n. destruct (at_boundary prev s); [|discriminate].
    apply IH, Hc.
  - destruct lo as [|lo].
    + destruct hi as [[|[|hi]]|]; try discriminate.
      intros Hc prev s n. apply rep_optional. apply IH, Hc.
    + intros _ prev s n. apply rep_positive.
Qed.

Lemma PATTERNS_consume : Forall (fun kv => consumes (snd kv) = true) PATTERNS.
Proof. unfold PATTERNS. repeat constructor. Qed.

(** Where [re.search] finds nothing, [re.sub] changes nothing. *)
Lemma sub_from_no_match p repl s :
  forall prev, search_from p prev s = None -> sub_from p repl prev s 0 = s.
Proof.
  induction s as [|c s IH]; intros prev; simpl.
  - destruct (match_here p prev []); [discriminate | reflexivity].
  - destruct (match_here p prev (c :: s)); [discriminate|].
    destruct (search_from p (Some c) s) as [[i n]|] eqn:E; [discriminate|].
    intros _. f_equal. apply IH, E.
Qed.

Lemma sub_no_match p repl s : search p s = None -> sub p repl s = s.
Proof. apply sub_from_no_match. Qed.

(** Where [re.search] finds nothing, [re.findall] is empty, and conversely. *)
Lemma findall_from_no_match p s :
  forall prev, search_from p prev s = None -> findall_from p prev s 0 = [].
Proof.
  induction s as [|c s IH]; intros prev; simpl.
  - destruct (match_here p prev []); [discriminate | reflexivity].
  - destruct (match_here p prev (c :: s)); [discriminate|].
    destruct (search_from p (Some c) s) as [[i n]|] eqn:E; [discriminate|].
    intros _. apply IH, E.
Qed.

Lemma findall_from_match p s :
  consumes p = true ->
  forall prev, search_from p prev s <> None -> findall_from p prev s 0 <> [].
Proof.
  intros Hc. induction s as [|c s IH]; intros prev; simpl.
  - destruct (match_here p prev []) as [[|n]|] eqn:E; [|discriminate|congruence].
    apply (match_here_nonempty p Hc) in E. lia.
  - destruct (match_here p prev (c :: s)) as [[|n]|] eqn:E.
    + apply (match_here_nonempty p Hc) in E. lia.
    + discriminate.
    + destruct (search_from p (Some c) s) as [[i n]|] eqn:E'; [|congruence].
      intros _. apply IH. congruence.
Qed.

Lemma brackets_app a b : brackets (a ++ b) = (brackets a + brackets b)%nat.
Proof. unfold brackets. rewrite List.filter_app, length_app. reflexivity. Qed.

Lemma brackets_cons c s :
  brackets (c :: s) = ((if (91 =? c)%N then 1 else 0) + brackets s)%nat.
Proof.
  unfold brackets. cbn [List.filter]. destruct (91 =? c); reflexivity.
Qed.

Ltac count_brackets :=
  rewrite ?firstn_O, ?firstn_cons in *;
  rewrite ?brackets_app, ?brackets_cons in *;
  change (brackets []) with 0%nat in *;
  repeat match goal with
         | H : context [if (91 =? ?c)%N then _ else _] |- _ => destruct (91 =? c)%N
         | |- context [if (91 =? ?c)%N then _ else _] => destruct (91 =? c)%N
         end;
  lia.

Lemma in_class_not_bracket cl c :
  in_class cl 91 = false -> in_class cl c = true -> (91 =? c) = false.
Proof.
  intros H91 Hc. destruct (91 =? c) eqn:E; [|reflexivity].
  apply N.eqb_eq in E. subst c. congruence.
Qed.

(** A match of a bracket-free pattern holds no "[". *)
Lemma rep_brackets cl k (Hcl : in_class cl 91 = false)
    (Hk : forall prev s n, k prev s = Some n -> brackets (firstn n s) = 0%nat) :
  forall s lo hi prev n,
    rep cl k lo hi prev s = Some n -> brackets (firstn n s) = 0%nat.
Proof.
  induction s as [|c s IH]; intros lo hi prev n; simpl.
  - destruct lo; [apply Hk | discriminate].
  - destruct (may_take hi && in_class cl c) eqn:E.
    + apply andb_prop in E as [_ E].
      destruct (rep cl k (Nat.pred lo) (dec_hi hi) (Some c) s) as [m|] eqn:R.
      * intros [= <-]. simpl firstn. rewrite brackets_cons.
        rewrite (in_class_not_bracket cl c Hcl E). apply (IH _ _ _ _ R).
      * destruct lo; [apply Hk | discriminate].
    + destruct lo; [apply Hk | discriminate].
Qed.

Lemma match_here_brackets p :
  bracket_free p = true ->
  forall prev s n, match_here p prev s = Some n -> brackets (firstn n s) = 0%nat.
Proof.
  induction p as [|nd p IH]; simpl.
  - intros _ prev s n [= <-]. reflexivity.
  - intros H. apply andb_prop in H as [Hnd Hp]. destruct nd as [|cl lo hi].
    + intros prev s n. destruct (at_boundary prev s); [|discriminate].
      apply IH, Hp.
    + intros prev s n. apply rep_brackets; [|apply IH, Hp].
      apply negb_true_iff, Hnd.
Qed.

(** [re.sub] removes no "[" ... *)
Lemma sub_from_brackets_ge p repl :
  bracket_free p = true ->
  forall s prev skip,
    (brackets s <= brackets (sub_from p repl prev s skip)
                   + brackets (firstn skip s))%nat.
Proof.
  intros Hp. induction s as [|c s IH]; intros prev skip.
  - unfold brackets at 1. simpl. lia.
  - destruct skip as [|k]; cbn [sub_from].
    + destruct (match_here p prev (c :: s)) as [[|n]|] eqn:E.
      * specialize (IH (Some c) 0%nat). count_brackets.
      * apply (match_here_brackets p Hp) in E.
        specialize (IH (Some c) n). count_brackets.
      * specialize (IH (Some c) 0%nat). count_brackets.
    + specialize (IH (Some c) k). count_brackets.
Qed.

(** ... and adds one for each match it replaces. *)
Lemma sub_from_brackets_gt p repl :
  bracket_free p = true -> consumes p = true -> (0 < brackets repl)%nat ->
  forall s prev,
    search_from p prev s <> None ->
    (brackets s < brackets (sub_from p repl prev s 0))%nat.
Proof.
  intros Hp Hc Hr. induction s as [|c s IH]; intros prev;
    cbn [sub_from search_from].
  - destruct (match_here p prev []) as [[|n]|] eqn:E; [| |congruence].
    + apply (match_here_nonempty p Hc) in E. lia.
    + intros _. count_brackets.
  - destruct (match_here p prev (c :: s)) as [[|n]|] eqn:E.
    + apply (match_here_nonempty p Hc) in E. lia.
    + intros _. apply (match_here_brackets p Hp) in E.
      pose proof (sub_from_brackets_ge p repl Hp s (Some c) n).
      count_brackets.
    + destruct (search_from p (Some c) s) as [[i n]|] eqn:E'; [|congruence].
      intros _. specialize (IH (Some c) ltac:(congruence)). count_brackets.
Qed.

Lemma sub_brackets_ge p repl s :
  bracket_free p = true -> (brackets s <= brackets (sub p repl s))%nat.
Proof.
  intros Hp. pose proof (sub_from_brackets_ge p repl Hp s None 0%nat) as H.
  unfold sub. count_brackets.
Qed.

Lemma sub_brackets_gt p repl s :
  bracket_free p = true -> consumes p = true -> (0 < brackets repl)%nat ->
  search p s <> None -> (brackets s < brackets (sub p repl s))%nat.
Proof. intros Hp Hc Hr. apply sub_from_brackets_gt; assumption. Qed.

End MatcherFacts.

(** ** Card numbers *)

Section CardFacts.
Context {U : UnicodeDB}.

Lemma ascii_digit_cases c :
  ascii_digit c = true ->
  c = 48 \/ c = 49 \/ c = 50 \/ c = 51 \/ c = 52 \/ c = 53 \/ c = 54 \/
  c = 55 \/ c = 56 \/ c = 57.
Proof.
  unfold ascii_digit, between. intros H. apply andb_prop in H as [H1 H2].
  apply N.leb_le in H1, H2. lia.
Qed.

Lemma ascii_space_cases c :
  ascii_space c = true ->
  c = 9 \/ c = 10 \/ c = 11 \/ c = 12 \/ c = 13 \/
  c = 28 \/ c = 29 \/ c = 30 \/ c = 31 \/ c = 32.
Proof.
  unfold ascii_space, between. intros H.
  apply orb_prop in H as [H|H]; apply andb_prop in H as [H1 H2];
    apply N.leb_le in H1, H2; lia.
Qed.

Ltac canon_cases c :=
  unfold canon;
  destruct (ascii_digit c) eqn:Ed;
  [ apply ascii_digit_cases in Ed;
    repeat (destruct Ed as [->|Ed]; [vm_compute; reflexivity|]);
    subst c; vm_compute; reflexivity
  | destruct (ascii_space c) eqn:Es;
    [ apply ascii_space_cases in Es;
      repeat (destruct Es as [->|Es]; [vm_compute; reflexivity|]);
      subst c; vm_compute; reflexivity
    | reflexivity ] ].

Lemma canon_word : canon_stable is_word.
Proof. intros c. canon_cases c. Qed.

Lemma PATTERNS_canon : Forall (fun kv => canon_pattern (snd kv)) PATTERNS.
Proof.
  unfold PATTERNS.
  repeat (apply List.Forall_cons;
          [repeat (apply List.Forall_cons;
                   [first [exact I | intros c; canon_cases c]|]);
           apply List.Forall_nil|]).
  apply List.Forall_nil.
Qed.


Lemma canon_boundary prev s :
  at_boundary (canon <$> prev) (List.map canon s) = at_boundary prev s.
Proof.
  unfold at_boundary. f_equal.
  - destruct prev as [c|]; [apply canon_word | reflexivity].
  - destruct s as [|c s]; [reflexivity | apply canon_word].
Qed.

Lemma rep_canon cl k :
  canon_stable (in_class cl) ->
  (forall prev s, k (canon <$> prev) (List.map canon s) = k prev s) ->
  forall s lo hi prev,
    rep cl k lo hi (canon <$> prev) (List.map canon s) = rep cl k lo hi prev s.
Proof.
  intros Hcl Hk. induction s as [|c s IH]; intros lo hi prev; simpl.
  - destruct lo; [exact (Hk prev []) | reflexivity].
  - rewrite Hcl. change (Some (canon c)) with (canon <$> Some c).
    rewrite IH. change (canon c :: List.map canon s) with (List.map canon (c :: s)).
    destruct lo; rewrite ?Hk; reflexivity.
Qed.

Lemma match_here_canon p :
  canon_pattern p ->
  forall prev s,
    match_here p (canon <$> prev) (List.map canon s) = match_here p prev s.
Proof.
  induction 1 as [|nd p Hnd Hp IH]; intros prev s; [reflexivity|].
  destruct nd as [|cl lo hi]; simpl.
  - rewrite canon_boundary, IH. reflexivity.
  - apply rep_canon; assumption.
Qed.

Lemma sub_from_canon p repl :
  canon_pattern p -> List.map canon repl = repl ->
  forall s prev skip,
    sub_from p repl (canon <$> prev) (List.map canon s) skip
    = List.map canon (sub_from p repl prev s skip).
Proof.
  intros Hp Hr. induction s as [|c s IH]; intros prev skip.
  - destruct skip; simpl; [|reflexivity].
    change (@nil N) with (List.map canon []) at 1.
    rewrite (match_here_canon p Hp prev []).
    destruct (match_here p prev []) as [[|n]|]; simpl;
      rewrite ?app_nil_r; auto.
  - destruct skip as [|skip]; cbn [sub_from List.map].
    + change (canon c :: List.map canon s) with (List.map canon (c :: s)).
      rewrite (match_here_canon p Hp prev (c :: s)).
      change (Some (canon c)) with (canon <$> Some c).
      destruct (match_here p prev (c :: s)) as [[|n]|];
        rewrite ?List.map_app, ?Hr, IH; reflexivity.
    + change (Some (canon c)) with (canon <$> Some c). apply IH.
Qed.

Lemma sub_canon p repl s :
  canon_pattern p -> List.map canon repl = repl ->
  sub p repl (List.map canon s) = List.map canon (sub p repl s).
Proof. intros Hp Hr. apply (sub_from_canon p repl Hp Hr s None 0%nat). Qed.

Lemma _redact_string_canon s :
  _redact_string (List.map canon s) = List.map canon (_redact_string s).
Proof.
  unfold _redact_string.
  assert (Hr : Forall (fun kv => List.map canon (replacement_of (fst kv))
                                 = replacement_of (fst kv)) PATTERNS).
  { unfold PATTERNS. repeat (apply List.Forall_cons; [reflexivity|]).
    apply List.Forall_nil. }
  revert s Hr. generalize PATTERNS_canon. generalize PATTERNS as ps.
  induction ps as [|[name p] ps IH]; intros Hc s Hr; [reflexivity|].
  inversion Hc as [|? ? Hp Hps]; subst. inversion Hr as [|? ? Hn Hrs]; subst.
  simpl in *. rewrite (sub_canon p _ s Hp Hn). apply IH; assumption.
Qed.

(** What [canon] maps to a character other than "0" and " " is that
    character. *)
Lemma canon_fixed_text out text :
  List.map canon out = text ->
  forallb (fun c => negb (c =? 48) && negb (c =? 32)) text = true ->
  out = text.
Proof.
  revert text. induction out as [|c out IH]; intros [|d text]; simpl;
    try discriminate; [reflexivity|].
  intros [= Hc Hout] H. apply andb_prop in H as [Hd Htext].
  f_equal; [|apply IH; assumption].
  apply andb_prop in Hd as [H48 H32].
  apply negb_true_iff, N.eqb_neq in H48, H32.
  unfold canon in Hc. destruct (ascii_digit c); [congruence|].
  destruct (ascii_space c); congruence.
Qed.

Lemma strip_group_canon s r :
  strip_group s = Some r ->
  List.map canon s = [48; 48; 48; 48] ++ List.map canon r.
Proof.
  destruct s as [|a [|b [|c [|d rest]]]]; try discriminate. simpl.
  destruct (ascii_digit a) eqn:Ea; [|discriminate].
  destruct (ascii_digit b) eqn:Eb; [|discriminate].
  destruct (ascii_digit c) eqn:Ec; [|discriminate].
  destruct (ascii_digit d) eqn:Ed; [|discriminate].
  intros [= <-]. unfold canon. rewrite Ea, Eb, Ec, Ed. reflexivity.
Qed.

Lemma strip_separator_canon r :
  exists sep,
    (sep = [] \/ sep = [45] \/ sep = [32])
    /\ List.map canon r = sep ++ List.map canon (strip_separator r).
Proof.
  destruct r as [|c rest]; [exists []; auto|]. simpl.
  destruct (card_separator c) eqn:E; [|exists []; auto].
  unfold card_separator in E. apply orb_prop in E as [E|E].
  - apply N.eqb_eq in E. subst c. exists [45]. auto.
  - exists [32]. split; [auto|]. simpl. f_equal. unfold canon.
    rewrite E. apply ascii_space_cases in E.
    repeat (destruct E as [->|E]; [reflexivity|]). subst c. reflexivity.
Qed.

Lemma card_shaped_redacted s :
  card_shaped s = true -> _redact_string s = cps "[REDACTED_CC]".
Proof.
  unfold card_shaped.
  destruct (strip_group s) as [r1|] eqn:E1; [|discriminate].
  destruct (strip_group (strip_separator r1)) as [r2|] eqn:E2; [|discriminate].
  destruct (strip_group (strip_separator r2)) as [r3|] eqn:E3; [|discriminate].
  destruct (strip_group (strip_separator r3)) as [[|]|] eqn:E4;
    try discriminate.
  intros _.
  apply strip_group_canon in E1, E2, E3, E4.
  destruct (strip_separator_canon r1) as (s1 & H1 & R1).
  destruct (strip_separator_canon r2) as (s2 & H2 & R2).
  destruct (strip_separator_canon r3) as (s3 & H3 & R3).
  rewrite R1, E2, R2, E3, R3, E4 in E1.
  apply canon_fixed_text with (text := cps "[REDACTED_CC]"); [|reflexivity].
  rewrite <- _redact_string_canon, E1.
  destruct H1 as [->|[->| ->]], H2 as [->|[->| ->]], H3 as [->|[->| ->]];
    vm_compute; reflexivity.
Qed.

End CardFacts.

(** ** The redactor and the compliance gate *)

Ltac in_list := vm_compute; repeat (first [left; reflexivity | right]).
Ltac each_in_list :=
  repeat (apply List.Forall_cons; [in_list|]); apply List.Forall_nil.

Section RedactorFacts.
Context {U : UnicodeDB}.

Lemma REPLACEMENTS_defined :
  Forall (fun kv => In (fst kv) (List.map fst REPLACEMENTS)) PATTERNS.
Proof. unfold PATTERNS. each_in_list. Qed.

Lemma _redact_string_unfold text :
  _redact_string text =
  sub phone_pattern (cps "[REDACTED_PHONE]")
    (sub email_pattern (cps "[REDACTED_EMAIL]")
      (sub credit_card_pattern (cps "[REDACTED_CC]")
        (sub ssn_pattern (cps "[REDACTED_SSN]") text))).
Proof. reflexivity. Qed.

(** [get_pii_report] and [detect_pii] agree on whether there is PII. *)
Lemma pii_detected_iff_detect data :
  pii_detected (get_pii_report data) = negb (validate_no_pii data).
Proof.
  unfold get_pii_report, validate_no_pii, detect_pii, findall, search.
  generalize (str_value data) as text. intros text.
  generalize PATTERNS_consume. generalize PATTERNS as ps.
  cbn [pii_detected].
  induction ps as [|[name p] ps IH]; intros Hc; [reflexivity|].
  inversion Hc as [|? ? Hp Hps]; subst. simpl in Hp. simpl.
  destruct (search_from p None text) as [[i n]|] eqn:E.
  - pose proof (findall_from_match p text Hp None) as Hne.
    rewrite E in Hne. specialize (Hne ltac:(discriminate)).
    destruct (findall_from p None text 0); [congruence|].
    rewrite bool_decide_eq_true_2 by eauto. reflexivity.
  - rewrite (findall_from_no_match p text None E).
    rewrite bool_decide_eq_false_2 by (intros [? ?]; discriminate).
    apply IH, Hps.
Qed.

(** A string in which no pattern is found is left as it is. *)
Lemma _redact_string_clean s : clean s = true -> _redact_string s = s.
Proof.
  unfold clean, validate_no_pii, detect_pii, _redact_string. simpl str_value.
  generalize PATTERNS as ps.
  induction ps as [|[name p] ps IH]; [reflexivity|]. simpl.
  destruct (search p s) as [[i n]|] eqn:E.
  - rewrite bool_decide_eq_true_2 by eauto. discriminate.
  - rewrite bool_decide_eq_false_2 by (intros [? ?]; discriminate).
    rewrite (sub_no_match p _ s E). apply IH.
Qed.

Lemma PATTERNS_mark_matches : Forall marks_matches PATTERNS.
Proof.
  unfold PATTERNS.
  repeat (apply List.Forall_cons;
          [split; [reflexivity|]; split; [reflexivity|]; vm_compute; lia|]).
  apply List.Forall_nil.
Qed.

(** The replacement loop over any list of patterns that mark their matches:
    it removes no "[", and it gives the string back only if no pattern is
    found in it. *)
Lemma replace_all_fixed ps :
  Forall marks_matches ps ->
  forall s,
    let out := fold_left
                 (fun text kv => sub (snd kv) (replacement_of (fst kv)) text)
                 ps s in
    (brackets s <= brackets out)%nat
    /\ (out = s -> Forall (fun kv => search (snd kv) s = None) ps).
Proof.
  induction 1 as [|[name p] ps (Hb & Hc & Hr) Hps IH]; intros s; simpl.
  - split; [lia | constructor].
  - destruct (IH (sub p (replacement_of name) s)) as [Hge Hfix].
    simpl in Hb, Hc, Hr.
    pose proof (sub_brackets_ge p (replacement_of name) s Hb) as Hge1.
    split; [lia|]. intros Hout.
    assert (Hnone : search p s = None).
    { destruct (search p s) as [m|] eqn:E; [|reflexivity]. exfalso.
      pose proof (sub_brackets_gt p (replacement_of name) s Hb Hc Hr) as Hgt.
      rewrite E in Hgt. specialize (Hgt ltac:(discriminate)).
      rewrite Hout in Hge. lia. }
    rewrite (sub_no_match p _ s Hnone) in Hfix, Hout.
    constructor; [exact Hnone | exact (Hfix Hout)].
Qed.

(** A string that the replacements leave as it is holds no match. *)
Lemma _redact_string_fixed s : _redact_string s = s -> clean s = true.
Proof.
  intros Hfix.
  destruct (replace_all_fixed PATTERNS PATTERNS_mark_matches s) as [_ Hnone].
  specialize (Hnone Hfix).
  unfold clean, validate_no_pii, detect_pii. simpl str_value.
  revert Hnone. generalize PATTERNS as ps.
  induction ps as [|[name p] ps IH]; [reflexivity|].
  intros Hnone. inversion Hnone as [|? ? Hp Hps]; subst. simpl in Hp.
  cbn [List.filter snd]. rewrite Hp.
  rewrite bool_decide_eq_false_2 by (intros [? ?]; discriminate).
  apply IH, Hps.
Qed.

Lemma redact_clean x :
  all_leaves clean x = true -> redact x = x.
Proof.
  induction x as [s|items IH|elems IH| | | |] using value_induction;
    simpl; intros H; try reflexivity.
  - f_equal. apply _redact_string_clean, H.
  - f_equal. induction IH as [|[k v] items Hv _ IHitems]; [reflexivity|].
    simpl in *. apply andb_prop in H as [H1 H2].
    rewrite Hv, IHitems by assumption. reflexivity.
  - f_equal. induction IH as [|v elems Hv _ IHelems]; [reflexivity|].
    simpl in *. apply andb_prop in H as [H1 H2].
    rewrite Hv, IHelems by assumption. reflexivity.
Qed.

Lemma redact_same_shape x : same_shape x (redact x).
Proof.
  induction x as [s|items IH|elems IH| | | |] using value_induction;
    simpl; try constructor.
  - induction items as [|[k v] items IHi]; [reflexivity|].
    inversion IH; subst. simpl. f_equal. auto.
  - induction IH as [|[k v] items Hv _ IHi]; constructor; assumption.
  - induction IH as [|v elems Hv _ IHe]; constructor; assumption.
Qed.

Lemma redact_keys items : keys (redact (VDict items)) = keys (VDict items).
Proof.
  simpl. induction items as [|[k v] items IH]; [reflexivity|].
  simpl. f_equal. exact IH.
Qed.

(** C1: every literal example of the known corpus is detected under its
    category by [detect_pii], and detection is on substrings: the phone number
    inside "call me at 555-123-4567" is found. *)
Theorem detect_pii_recall :
  Forall (fun ex => In (fst ex) (detect_pii (VStr (snd ex)))) known_corpus /\
  In (cps "phone") (detect_pii (VStr (cps "call me at 555-123-4567"))).
Proof.
  split; [unfold known_corpus; each_in_list | in_list].
Qed.

(** C3: the verdict of [validate_data_for_storage] carries the PII report
    of the record; it is compliant exactly when it lists no issue, and it
    lists an issue exactly when that report says PII was detected. *)
Theorem validate_compliant_iff_no_issue (record : value) :
  pii_report (validate_data_for_storage record) = get_pii_report record /\
  (compliant (validate_data_for_storage record) = true
     <-> issues (validate_data_for_storage record) = []) /\
  (issues (validate_data_for_storage record) <> []
     <-> pii_detected (get_pii_report record) = true).
Proof.
  unfold validate_data_for_storage. cbn [compliant issues pii_report].
  destruct (pii_detected (get_pii_report record)); cbn [List.length Nat.eqb];
    repeat split; intros; congruence.
Qed.

(** C6: [redact] keeps the shape of its argument: the result has the same
    nesting, every dict keeps its keys in their order, every list keeps its
    length and the order of its elements, and every leaf that is not a string
    (number, boolean, None, any other object) comes back unchanged. [redact]
    is a total function: no value makes it raise. *)
Theorem redact_preserves_shape :
  (forall x, same_shape x (redact x)) /\
  (forall items, keys (redact (VDict items)) = keys (VDict items)) /\
  (forall elems, exists elems',
      redact (VList elems) = VList elems'
      /\ List.length elems' = List.length elems
      /\ forall i : nat, elems' !! i = redact <$> elems !! i) /\
  (forall z, redact (VInt z) = VInt z) /\
  (forall b, redact (VBool b) = VBool b) /\
  redact VNone = VNone /\
  (forall r, redact (VOther r) = VOther r).
Proof.
  split; [exact redact_same_shape|].
  split; [exact redact_keys|].
  split; [|repeat split].
  intros elems. exists (List.map redact elems).
  split; [reflexivity|]. split; [apply length_map|].
  intros i. apply list_lookup_fmap.
Qed.

(** C8: the record {"email": "john@example.com"} is refused by the gate
    (not compliant, one issue, PII detected, "email" among the types); once
    redacted it passes, with no issue. *)
Theorem gate_blocks_then_passes :
  let record := VDict [(cps "email", VStr (cps "john@example.com"))] in
  let before := validate_data_for_storage record in
  let after := validate_data_for_storage (redact record) in
  compliant before = false /\
  issues before = [cps "PII detected: email"] /\
  pii_detected (pii_report before) = true /\
  In (cps "email") (pii_types (pii_report before)) /\
  redact record = VDict [(cps "email", VStr (cps "[REDACTED_EMAIL]"))] /\
  compliant after = true /\
  issues after = [].
Proof.
  repeat split; try (vm_compute; reflexivity). in_list.
Qed.

(** C9 (amended): [redact] on a string leaf is the four substitutions in
    the order ssn, credit_card, email, phone. Every leaf that is sixteen
    ASCII digits in four groups of four, with nothing, a hyphen or a
    whitespace character between two groups, is therefore replaced as a whole
    by "[REDACTED_CC]" before the phone pattern runs, which on its own would
    take the last ten digits of "1234567890123456". *)
Theorem redact_order_credit_card_first :
  List.map fst PATTERNS =
    [cps "ssn"; cps "credit_card"; cps "email"; cps "phone"] /\
  (forall text,
      redact (VStr text) =
      VStr
        (sub phone_pattern (cps "[REDACTED_PHONE]")
          (sub email_pattern (cps "[REDACTED_EMAIL]")
            (sub credit_card_pattern (cps "[REDACTED_CC]")
              (sub ssn_pattern (cps "[REDACTED_SSN]") text))))) /\
  (forall leaf,
      card_shaped leaf = true ->
      redact (VStr leaf) = VStr (cps "[REDACTED_CC]")) /\
  card_shaped (cps "1234-5678-9012-3456") = true /\
  card_shaped (cps "1234 5678 9012 3456") = true /\
  card_shaped (cps "1234567890123456") = true /\
  redact (VStr (cps "1234-5678-9012-3456")) = VStr (cps "[REDACTED_CC]") /\
  redact (VStr (cps "1234 5678 9012 3456")) = VStr (cps "[REDACTED_CC]") /\
  redact (VStr (cps "1234567890123456")) = VStr (cps "[REDACTED_CC]") /\
  sub phone_pattern (cps "[REDACTED_PHONE]") (cps "1234567890123456")
    = cps "123456[REDACTED_PHONE]".
Proof.
  split; [reflexivity|].
  split; [intros text; simpl; f_equal; apply _redact_string_unfold|].
  split; [intros leaf Hleaf; simpl; f_equal; apply card_shaped_redacted, Hleaf|].
  repeat split; vm_compute; reflexivity.
Qed.

(** C10: [redact] rewrites the values of a dict and never its keys, even a
    key that matches a pattern; detection reads the whole text of the value,
    keys included. So {"john@example.com": 1} comes back from [redact]
    unchanged and is still refused by the gate. *)
Theorem redact_keeps_keys :
  (forall items, keys (redact (VDict items)) = keys (VDict items)) /\
  let record := VDict [(cps "john@example.com", VInt 1)] in
  redact record = record /\
  str_value record = cps "{'john@example.com': 1}" /\
  In (cps "email") (detect_pii record) /\
  compliant (validate_data_for_storage (redact record)) = false.
Proof.
  split; [exact redact_keys|].
  repeat split; try (vm_compute; reflexivity). in_list.
Qed.

(** The counterexample to idempotence, whatever the Unicode database. *)
Lemma redact_twenty_digits :
  redact (VStr twenty_digits) = VStr (cps "1234567890[REDACTED_PHONE]") /\
  redact (redact (VStr twenty_digits))
    = VStr (cps "[REDACTED_PHONE][REDACTED_PHONE]").
Proof. split; vm_compute; reflexivity. Qed.

Lemma redact_fixed x : redact x = x -> all_leaves clean x = true.
Proof.
  induction x as [s|items IH|elems IH| | | |] using value_induction;
    simpl; intros H; try reflexivity.
  - injection H as H. apply _redact_string_fixed, H.
  - injection H as H. induction IH as [|[k v] items Hv _ IHitems];
      [reflexivity|].
    simpl in *. injection H as Hv' Hitems.
    rewrite Hv, IHitems by assumption. reflexivity.
  - injection H as H. induction IH as [|v elems Hv _ IHelems];
      [reflexivity|].
    simpl in *. injection H as Hv' Helems.
    rewrite Hv, IHelems by assumption. reflexivity.
Qed.

(** A second pass of [redact] changes nothing exactly when the first pass
    left no match of any pattern in the string leaves of its result. *)
Lemma redact_idempotent_iff_clean (x : value) :
  redact (redact x) = redact x <-> all_leaves clean (redact x) = true.
Proof. split; [apply redact_fixed | apply redact_clean]. Qed.

End RedactorFacts.

(** ** The anonymizer *)

Lemma hex_digit_is_hex (n : N) : n < 16 -> is_hex_char (hex_digit n) = true.
Proof.
  intros H. unfold is_hex_char, hex_digit, between.
  destruct (n <? 10) eqn:E.
  - apply N.ltb_lt in E. apply orb_true_iff. left.
    apply andb_true_iff. split; apply N.leb_le; lia.
  - apply N.ltb_ge in E. apply orb_true_iff. right.
    apply andb_true_iff. split; apply N.leb_le; lia.
Qed.

Lemma hex_digits_length (w : nat) : forall n, List.length (hex_digits w n) = w.
Proof.
  induction w as [|w IH]; intros n; simpl; [reflexivity|].
  rewrite length_app, IH. simpl. lia.
Qed.

Lemma hex_digits_hex (w : nat) :
  forall n, forallb is_hex_char (hex_digits w n) = true.
Proof.
  induction w as [|w IH]; intros n; simpl; [reflexivity|].
  rewrite forallb_app, IH. simpl. rewrite hex_digit_is_hex; [reflexivity|].
  change 15 with (N.ones 4). rewrite N.land_ones.
  apply N.mod_lt. discriminate.
Qed.

Lemma hexdigest_length msg : List.length (Sha256.hexdigest msg) = 64%nat.
Proof.
  unfold Sha256.hexdigest. cbn [flat_map].
  rewrite !length_app, !hex_digits_length. reflexivity.
Qed.

Lemma hexdigest_hex msg : forallb is_hex_char (Sha256.hexdigest msg) = true.
Proof.
  unfold Sha256.hexdigest. cbn [flat_map].
  rewrite !forallb_app, !hex_digits_hex. reflexivity.
Qed.

Lemma forallb_firstn {A} (f : A -> bool) n :
  forall l, forallb f l = true -> forallb f (firstn n l) = true.
Proof.
  induction n as [|n IH]; intros [|x l]; simpl; try reflexivity.
  intros H. apply andb_prop in H as [Hx Hl]. rewrite Hx. simpl. auto.
Qed.

Lemma hash_hex_shape msg :
  List.length (firstn 6 (Sha256.hexdigest msg)) = 6%nat /\
  forallb is_hex_char (firstn 6 (Sha256.hexdigest msg)) = true.
Proof.
  split.
  - rewrite length_firstn, hexdigest_length. reflexivity.
  - apply forallb_firstn, hexdigest_hex.
Qed.

Lemma utf8_char_surrogate c :
  is_surrogate c = true -> utf8_char c = Raise UnicodeEncodeError.
Proof.
  intros H. unfold utf8_char. rewrite H.
  unfold is_surrogate, between in H.
  apply andb_prop in H as [H1 H2]. apply N.leb_le in H1.
  destruct (c <? 128) eqn:E1; [apply N.ltb_lt in E1; lia|].
  destruct (c <? 2048) eqn:E2; [apply N.ltb_lt in E2; lia|].
  reflexivity.
Qed.

Lemma utf8_char_scalar c :
  is_surrogate c = false -> exists bs, utf8_char c = Ok bs.
Proof.
  intros H. unfold utf8_char. rewrite H.
  destruct (c <? 128); [eauto|].
  destruct (c <? 2048); [eauto|].
  destruct (c <? 65536); eauto.
Qed.

(** [str.encode()] returns exactly on the strings without surrogates. *)
Lemma str_encode_encodable s :
  encodable s = true -> exists bytes, str_encode s = Ok bytes.
Proof.
  induction s as [|c s IH]; simpl; [eauto|].
  intros H. apply andb_prop in H as [Hc Hs].
  apply negb_true_iff in Hc.
  destruct (utf8_char_scalar c Hc) as [bs ->].
  destruct (IH Hs) as [rest ->]. eauto.
Qed.

Lemma str_encode_surrogate s :
  encodable s = false -> str_encode s = Raise UnicodeEncodeError.
Proof.
  induction s as [|c s IH]; simpl; [discriminate|].
  destruct (is_surrogate c) eqn:Hc; simpl.
  - intros _. rewrite (utf8_char_surrogate c Hc). reflexivity.
  - intros Hs. destruct (utf8_char_scalar c Hc) as [bs ->].
    rewrite (IH Hs). reflexivity.
Qed.

(** The first call on an instance whose cache has no entry for the key. *)
Lemma anonymize_miss self identifier category bytes :
  _anonymization_cache self !! (category ++ cps ":" ++ identifier) = None ->
  str_encode identifier = Ok bytes ->
  fst (anonymize self identifier category)
    = Ok (category ++ cps "_" ++ firstn 6 (Sha256.hexdigest bytes)).
Proof.
  intros Hmiss Henc. unfold anonymize. rewrite Hmiss, Henc. reflexivity.
Qed.

Lemma anonymize_new names identifier category bytes :
  str_encode identifier = Ok bytes ->
  fst (anonymize (new_redactor names) identifier category)
    = Ok (category ++ cps "_" ++ firstn 6 (Sha256.hexdigest bytes)).
Proof. apply anonymize_miss. apply lookup_empty. Qed.

Lemma anonymize_raises self identifier category :
  _anonymization_cache self !! (category ++ cps ":" ++ identifier) = None ->
  encodable identifier = false ->
  anonymize self identifier category = (Raise UnicodeEncodeError, self).
Proof.
  intros Hmiss Henc. unfold anonymize.
  rewrite Hmiss, (str_encode_surrogate _ Henc). reflexivity.
Qed.

(** C4 (amended): on a new instance, for every identifier without a
    surrogate code point (the empty string included) and every category,
    [anonymize] returns the category, an underscore and the first 6
    characters of the hexadecimal SHA-256 digest of the identifier's UTF-8
    bytes. *)
Theorem anonymize_new_token (names : bool) (identifier category : pystr) :
  encodable identifier = true ->
  exists bytes,
    str_encode identifier = Ok bytes /\
    fst (anonymize (new_redactor names) identifier category)
      = Ok (category ++ cps "_" ++ firstn 6 (Sha256.hexdigest bytes)) /\
    List.length (firstn 6 (Sha256.hexdigest bytes)) = 6%nat.
Proof.
  intros Henc. destruct (str_encode_encodable _ Henc) as [bytes Hb].
  exists bytes. split; [exact Hb|].
  split; [apply anonymize_new, Hb | apply hash_hex_shape].
Qed.

Lemma anonymize_new_token_empty :
  encodable [] = true /\
  exists bytes,
    str_encode [] = Ok bytes /\
    fst (anonymize (new_redactor true) [] (cps "customer"))
      = Ok (cps "customer" ++ cps "_" ++ firstn 6 (Sha256.hexdigest bytes)) /\
    List.length (firstn 6 (Sha256.hexdigest bytes)) = 6%nat.
Proof.
  split; [reflexivity|].
  apply (anonymize_new_token true [] (cps "customer")). reflexivity.
Defined.

(** On a lone surrogate [identifier.encode()] raises, and so does
    [anonymize]: it is not total over strings. *)
Lemma anonymize_lone_surrogate_raises :
  encodable lone_surrogate = false /\
  str_encode lone_surrogate = Raise UnicodeEncodeError /\
  anonymize (new_redactor true) lone_surrogate (cps "customer")
    = (Raise UnicodeEncodeError, new_redactor true).
Proof. repeat split; vm_compute; reflexivity. Qed.

Lemma anonymize_empty_identifier :
  fst (anonymize (new_redactor true) [] (cps "customer"))
    = Ok (cps "customer_e3b0c4").
Proof. vm_compute. reflexivity. Qed.

(** Cache keys: "{category}:{identifier}". *)
Lemma cache_key_category c1 c2 identifier :
  c1 ++ cps ":" ++ identifier = c2 ++ cps ":" ++ identifier -> c1 = c2.
Proof. apply app_inv_tail. Qed.

Lemma cache_key_inj c1 :
  forall c2 i1 i2,
    colon_free c1 = true -> colon_free c2 = true ->
    c1 ++ cps ":" ++ i1 = c2 ++ cps ":" ++ i2 -> c1 = c2 /\ i1 = i2.
Proof.
  induction c1 as [|x c1 IH]; intros [|y c2] i1 i2 H1 H2 E; simpl in *.
  - injection E as E. auto.
  - injection E as Ey _. subst y. discriminate.
  - injection E as Ex _. subst x. discriminate.
  - injection E as Exy E. subst y.
    apply andb_prop in H1 as [_ H1]. apply andb_prop in H2 as [_ H2].
    destruct (IH c2 i1 i2 H1 H2 E) as [-> ->]. auto.
Qed.

(** Along calls with colon-free categories, every cache entry holds what a
    new instance returns for the key's category and identifier. *)
Lemma colon_free_run_cache names self :
  colon_free_run names self ->
  forall key token,
    _anonymization_cache self !! key = Some token ->
    exists identifier category,
      colon_free category = true
      /\ key = category ++ cps ":" ++ identifier
      /\ fst (anonymize (new_redactor names) identifier category) = Ok token.
Proof.
  induction 1 as [|self identifier category Hrun IH Hc]; intros key token.
  - simpl. rewrite lookup_empty. discriminate.
  - unfold anonymize at 1.
    destruct (_anonymization_cache self !! (category ++ cps ":" ++ identifier))
      as [cached|] eqn:Hk; [apply IH|].
    destruct (str_encode identifier) as [bytes|e] eqn:He; [|apply IH].
    simpl. rewrite lookup_insert. case_decide as Hkey.
    + intros [= <-]. exists identifier, category.
      split; [exact Hc|]. split; [congruence|].
      apply anonymize_new, He.
    + apply IH.
Qed.

(** With colon-free categories the cache only memoizes: every call returns
    what a new instance returns. *)
Lemma anonymize_pure_colon_free names self identifier category :
  colon_free_run names self ->
  colon_free category = true ->
  fst (anonymize self identifier category)
    = fst (anonymize (new_redactor names) identifier category).
Proof.
  intros Hrun Hc. unfold anonymize at 1.
  destruct (_anonymization_cache self !! (category ++ cps ":" ++ identifier))
    as [cached|] eqn:Hk.
  - destruct (colon_free_run_cache names self Hrun _ _ Hk)
      as (i & c & Hc' & Hkey & Hnew).
    destruct (cache_key_inj category c identifier i Hc Hc' Hkey) as [-> ->].
    symmetry. exact Hnew.
  - unfold anonymize, new_redactor. simpl. rewrite lookup_empty.
    destruct (str_encode identifier); reflexivity.
Qed.

(** C5: the cache key "{category}:{identifier}" is the same for
    ("customer:eu", "42") and ("customer", "eu:42"), so after a call for the
    first pair the call for the second returns the first pair's token, not
    the token a new instance computes. *)
Theorem anonymize_cache_key_collision :
  let fresh := new_redactor true in
  let used := snd (anonymize fresh (cps "42") (cps "customer:eu")) in
  fst (anonymize fresh (cps "42") (cps "customer:eu"))
    = Ok (cps "customer:eu_73475c") /\
  fst (anonymize fresh (cps "eu:42") (cps "customer"))
    = Ok (cps "customer_d63d1f") /\
  fst (anonymize used (cps "eu:42") (cps "customer"))
    = Ok (cps "customer:eu_73475c").
Proof. repeat split; vm_compute; reflexivity. Qed.

(** C7 (amended): for every identifier without a surrogate code point and
    two distinct categories, [anonymize] returns two different tokens, each
    reading "{category}_{6 hex chars}", when the calls are made on a new
    instance, or on an instance called so far with colon-free categories
    only and the two categories are colon-free: whether the second call
    follows the first on that instance or is made in its place. *)
Theorem anonymize_categories_differ
    (names : bool) (self : PIIRedactor) (identifier c1 c2 : pystr) :
  encodable identifier = true ->
  c1 <> c2 ->
  self = new_redactor names
  \/ (colon_free_run names self
      /\ colon_free c1 = true /\ colon_free c2 = true) ->
  exists t1 t2 self1,
    anonymize self identifier c1 = (Ok t1, self1)
    /\ fst (anonymize self1 identifier c2) = Ok t2
    /\ fst (anonymize self identifier c2) = Ok t2
    /\ t1 <> t2
    /\ token_shape c1 t1
    /\ token_shape c2 t2.
Proof.
  intros Henc Hne Hself.
  destruct (str_encode_encodable _ Henc) as [bytes Hb].
  pose proof (hash_hex_shape bytes) as [Hlen Hhex].
  set (h := firstn 6 (Sha256.hexdigest bytes)) in *.
  exists (c1 ++ cps "_" ++ h), (c2 ++ cps "_" ++ h).
  assert (Hdiff : c1 ++ cps "_" ++ h <> c2 ++ cps "_" ++ h).
  { intros E. apply Hne. eapply app_inv_tail, E. }
  destruct Hself as [-> | (Hrun & Hc1 & Hc2)].
  - eexists. split.
    { unfold anonymize, new_redactor. simpl _anonymization_cache.
      rewrite lookup_empty, Hb. reflexivity. }
    split.
    { apply anonymize_miss; [|exact Hb]. simpl _anonymization_cache.
      rewrite lookup_insert_ne; [apply lookup_empty|].
      intros E. apply Hne. eapply cache_key_category, E. }
    split; [apply anonymize_new, Hb|].
    split; [exact Hdiff|]. split; exists h; auto.
  - exists (snd (anonymize self identifier c1)). split.
    { rewrite (surjective_pairing (anonymize self identifier c1)) at 1.
      f_equal.
      rewrite (anonymize_pure_colon_free names self identifier c1 Hrun Hc1).
      apply anonymize_new, Hb. }
    split.
    { rewrite (anonymize_pure_colon_free names _ identifier c2
                 (run_call names self identifier c1 Hrun Hc1) Hc2).
      apply anonymize_new, Hb. }
    split.
    { rewrite (anonymize_pure_colon_free names self identifier c2 Hrun Hc2).
      apply anonymize_new, Hb. }
    split; [exact Hdiff|]. split; exists h; auto.
Qed.

Lemma anonymize_categories_differ_john_smith :
  encodable (cps "John Smith") = true /\
  cps "customer" <> cps "contractor" /\
  (exists t1 t2 self1,
      anonymize (new_redactor true) (cps "John Smith") (cps "customer")
        = (Ok t1, self1)
      /\ fst (anonymize self1 (cps "John Smith") (cps "contractor")) = Ok t2
      /\ fst (anonymize (new_redactor true) (cps "John Smith") (cps "contractor"))
         = Ok t2
      /\ t1 <> t2
      /\ token_shape (cps "customer") t1
      /\ token_shape (cps "contractor") t2) /\
  (exists t1 t2 self1,
      anonymize
        (snd (anonymize (new_redactor true) (cps "Jane Doe") (cps "customer")))
        (cps "John Smith") (cps "customer")
        = (Ok t1, self1)
      /\ fst (anonymize self1 (cps "John Smith") (cps "contractor")) = Ok t2
      /\ fst (anonymize
                (snd (anonymize (new_redactor true) (cps "Jane Doe")
                        (cps "customer")))
                (cps "John Smith") (cps "contractor"))
         = Ok t2
      /\ t1 <> t2
      /\ token_shape (cps "customer") t1
      /\ token_shape (cps "contractor") t2).
Proof.
  split; [reflexivity|]. split; [vm_compute; discriminate|]. split.
  - apply (anonymize_categories_differ true (new_redactor true));
      [reflexivity | vm_compute; discriminate | left; reflexivity].
  - apply (anonymize_categories_differ true
             (snd (anonymize (new_redactor true) (cps "Jane Doe")
                     (cps "customer"))));
      [reflexivity | vm_compute; discriminate |].
    right. split; [|split; reflexivity].
    apply run_call; [apply run_new | reflexivity].
Defined.

Lemma anonymize_john_smith :
  fst (anonymize (new_redactor true) (cps "John Smith") (cps "customer"))
    = Ok (cps "customer_ef61a5") /\
  fst (anonymize (new_redactor true) (cps "John Smith") (cps "contractor"))
    = Ok (cps "contractor_ef61a5").
Proof. split; vm_compute; reflexivity. Qed.

(** Two distinct categories with the same outcome. On a lone surrogate
    neither category gets a token: both calls raise the same exception. And
    on an instance that has served ("l3drw:John Smith", "customer"), the
    categories "customer:l3drw" and "customer" get the same token for
    "John Smith": the first by the stored key
    "customer:l3drw:John Smith", the second by its own hash, whose first
    six digits are those of the stored one. *)
Lemma anonymize_categories_coincide :
  (cps "customer" <> cps "contractor" /\
   fst (anonymize (new_redactor true) lone_surrogate (cps "customer"))
     = Raise UnicodeEncodeError /\
   fst (anonymize (new_redactor true) lone_surrogate (cps "contractor"))
     = Raise UnicodeEncodeError /\
   fst (anonymize (new_redactor true) lone_surrogate (cps "customer"))
     = fst (anonymize (new_redactor true) lone_surrogate (cps "contractor"))) /\
  (cps "customer:l3drw" <> cps "customer" /\
   encodable (cps "John Smith") = true /\
   fst (anonymize
          (snd (anonymize (new_redactor true) (cps "l3drw:John Smith")
                  (cps "customer")))
          (cps "John Smith") (cps "customer:l3drw"))
     = Ok (cps "customer_ef61a5") /\
   fst (anonymize
          (snd (anonymize (new_redactor true) (cps "l3drw:John Smith")
                  (cps "customer")))
          (cps "John Smith") (cps "customer"))
     = Ok (cps "customer_ef61a5")).
Proof.
  split.
  - split; [vm_compute; discriminate|]. repeat split; vm_compute; reflexivity.
  - split; [vm_compute; discriminate|]. repeat split; vm_compute; reflexivity.
Qed.

(** ** Card numbers of fewer than sixteen digits *)

(** The credit_card pattern asks for sixteen digits. A card number of
    fifteen is no match for it, and the phone pattern, which asks for no
    word boundary before its first digit, takes its last ten digits; so it
    is with thirteen digits. *)
Lemma redact_fifteen_digits :
  card_shaped fifteen_digits = false /\
  (forall U : UnicodeDB,
      @search U credit_card_pattern fifteen_digits = None) /\
  (forall U : UnicodeDB,
      @redact U (VStr fifteen_digits) = VStr (cps "37828[REDACTED_PHONE]")) /\
  (forall U : UnicodeDB,
      @redact U (VStr (cps "4222222222222")) = VStr (cps "422[REDACTED_PHONE]")).
Proof.
  split; [reflexivity|]. repeat split; intros U; vm_compute; reflexivity.
Qed.

(** ** Idempotence of [redact] *)

(** The second pass over "12345678901234567890" finds a phone number that
    the first pass did not: ten digits followed by a digit end at no word
    boundary, ten digits followed by "[" do. *)
Lemma redact_not_idempotent :
  let x := VStr twenty_digits in
  (forall U : UnicodeDB,
      @redact U x = VStr (cps "1234567890[REDACTED_PHONE]")) /\
  (forall U : UnicodeDB,
      @redact U (@redact U x) = VStr (cps "[REDACTED_PHONE][REDACTED_PHONE]")) /\
  (forall U : UnicodeDB, @redact U (@redact U x) <> @redact U x).
Proof.
  repeat split; intros U; try apply redact_twenty_digits.
  destruct (@redact_twenty_digits U) as [-> ->]. vm_compute. discriminate.
Qed.

(** Both sides of the equivalence occur: the redacted email record is
    clean, the redacted run of twenty digits is not. *)
Lemma redact_clean_examples :
  (forall U : UnicodeDB,
      @all_leaves (@clean U)
        (@redact U (VDict [(cps "email", VStr (cps "john@example.com"))]))
      = true) /\
  (forall U : UnicodeDB,
      @all_leaves (@clean U) (@redact U (VStr twenty_digits)) = false).
Proof. split; intros U; vm_compute; reflexivity. Qed.

(** ** The report and the two gates *)

Section ReportFacts.
Context {U : UnicodeDB}.

Lemma rep_le cl k
    (Hk : forall prev s n, k prev s = Some n -> (n <= List.length s)%nat) :
  forall s lo hi prev n,
    rep cl k lo hi prev s = Some n -> (n <= List.length s)%nat.
Proof.
  induction s as [|c s IH]; intros lo hi prev n; simpl.
  - destruct lo; [apply Hk | discriminate].
  - destruct (may_take hi && in_class cl c).
    + destruct (rep cl k (Nat.pred lo) (dec_hi hi) (Some c) s) as [m|] eqn:R.
      * intros [= <-]. apply IH in R. lia.
      * destruct lo; [|discriminate]. intros H. apply Hk in H. simpl in H. lia.
    + destruct lo; [|discriminate]. intros H. apply Hk in H. simpl in H. lia.
Qed.

(** A match is no longer than the text it starts in. *)
Lemma match_here_le p :
  forall prev s n, match_here p prev s = Some n -> (n <= List.length s)%nat.
Proof.
  induction p as [|nd p IH]; simpl.
  - intros _ s n [= <-]. lia.
  - destruct nd as [|cl lo hi]; intros prev s n.
    + destruct (at_boundary prev s); [apply IH | discriminate].
    + apply rep_le, IH.
Qed.

(** What [re.findall] returns are non-empty pieces of the text. *)
Lemma findall_from_substrings p text :
  forall s prev skip pre,
    text = pre ++ s ->
    Forall (fun m => m <> [] /\ substring m text) (findall_from p prev s skip).
Proof.
  induction s as [|c s IH]; intros prev skip pre Htext.
  - destruct skip; simpl; [|constructor].
    destruct (match_here p prev []) as [[|n]|] eqn:E;
      [constructor | | constructor].
    apply match_here_le in E. simpl in E. lia.
  - assert (Hrest : text = (pre ++ [c]) ++ s) by (rewrite <- app_assoc; exact Htext).
    destruct skip as [|k]; cbn [findall_from]; [|apply (IH _ _ _ Hrest)].
    destruct (match_here p prev (c :: s)) as [[|n]|] eqn:E;
      try apply (IH _ _ _ Hrest).
    constructor; [|apply (IH _ _ _ Hrest)].
    split; [rewrite firstn_cons; discriminate|].
    exists pre, (skipn (S n) (c :: s)).
    rewrite firstn_skipn. exact Htext.
Qed.

Lemma findall_substrings p text :
  Forall (fun m => m <> [] /\ substring m text) (findall p text).
Proof. apply (findall_from_substrings p text text None O []). reflexivity. Qed.

Lemma Forall_firstn {A} (P : A -> Prop) n (l : list A) :
  Forall P l -> Forall P (firstn n l).
Proof.
  intros H. revert n. induction H as [|x l Hx Hl IH]; intros [|n]; simpl;
    constructor; auto.
Qed.

(** The types of the report are the types [detect_pii] lists. *)
Lemma pii_types_detect data :
  pii_types (get_pii_report data) = detect_pii data.
Proof.
  unfold get_pii_report, detect_pii, findall, search.
  generalize (str_value data) as text. intros text.
  generalize PATTERNS_consume. generalize PATTERNS as ps.
  cbn [pii_types].
  induction ps as [|[name p] ps IH]; intros Hc; [reflexivity|].
  inversion Hc as [|? ? Hp Hps]; subst. simpl in Hp.
  cbn [flat_map List.filter fst snd]. rewrite map_app, (IH Hps).
  destruct (search_from p None text) as [[i n]|] eqn:E.
  - pose proof (findall_from_match p text Hp None) as Hne.
    rewrite E in Hne. specialize (Hne ltac:(discriminate)).
    destruct (findall_from p None text 0); [congruence|].
    rewrite bool_decide_eq_true_2 by eauto. reflexivity.
  - rewrite (findall_from_no_match p text None E).
    rewrite bool_decide_eq_false_2 by (intros [? ?]; discriminate).
    reflexivity.
Qed.

Lemma detect_pii_sublist data : sublist (detect_pii data) (List.map fst PATTERNS).
Proof.
  unfold detect_pii. generalize PATTERNS as ps.
  induction ps as [|kv ps IH]; simpl; [constructor|].
  destruct (bool_decide _); simpl; [apply sublist_skip | apply sublist_cons];
    exact IH.
Qed.

(** X1: the two gates agree. [validate_no_pii(data)] is True exactly when
    [validate_data_for_storage(data)] is compliant, and exactly when the
    report says no PII was detected. *)
Theorem validate_no_pii_iff_compliant (data : value) :
  validate_no_pii data = compliant (validate_data_for_storage data) /\
  validate_no_pii data = negb (pii_detected (get_pii_report data)).
Proof.
  pose proof (pii_detected_iff_detect data) as H.
  unfold validate_data_for_storage. cbn [compliant].
  destruct (pii_detected (get_pii_report data));
    destruct (validate_no_pii data); try discriminate; split; reflexivity.
Qed.

(** X2: the types of a report are the keys of its details; they list each
    category at most once, in the order ssn, credit_card, email, phone; a
    type is listed exactly when [detect_pii] returns it; and PII is detected
    exactly when a type is listed. *)
Theorem report_types_sound (data : value) :
  pii_types (get_pii_report data) = List.map fst (details (get_pii_report data)) /\
  sublist (pii_types (get_pii_report data))
    [cps "ssn"; cps "credit_card"; cps "email"; cps "phone"] /\
  (forall t, In t (pii_types (get_pii_report data)) <-> In t (detect_pii data)) /\
  (pii_detected (get_pii_report data) = true
     <-> pii_types (get_pii_report data) <> []).
Proof.
  split; [reflexivity|].
  split; [rewrite pii_types_detect; apply detect_pii_sublist|].
  split; [intros t; rewrite pii_types_detect; reflexivity|].
  unfold get_pii_report. cbn [pii_detected pii_types].
  destruct (flat_map _ PATTERNS) as [|kv l]; cbn [List.length List.map Nat.ltb Nat.leb].
  - split; [discriminate | intros H; exfalso; apply H; reflexivity].
  - split; [discriminate | reflexivity].
Qed.

(** X3: every entry of the details of a report belongs to a category of
    [PATTERNS]; its count is the number of matches of that pattern in
    str(data) and is at least 1; its examples are the first matches, three
    at most, each a non-empty piece of str(data). *)
Theorem report_details_sound (data : value) :
  Forall
    (fun kv =>
       exists p,
         In (fst kv, p) PATTERNS
         /\ count (snd kv) = List.length (findall p (str_value data))
         /\ (1 <= count (snd kv))%nat
         /\ examples (snd kv) = firstn 3 (findall p (str_value data))
         /\ List.length (examples (snd kv)) = Nat.min 3 (count (snd kv))
         /\ Forall (fun m => m <> [] /\ substring m (str_value data))
              (examples (snd kv)))
    (details (get_pii_report data)).
Proof.
  unfold get_pii_report. cbn [details].
  generalize (str_value data) as text. intros text.
  assert (Hsub : forall ps, (forall kv, In kv ps -> In kv PATTERNS) ->
    Forall
      (fun kv =>
         exists p,
           In (fst kv, p) PATTERNS
           /\ count (snd kv) = List.length (findall p text)
           /\ (1 <= count (snd kv))%nat
           /\ examples (snd kv) = firstn 3 (findall p text)
           /\ List.length (examples (snd kv)) = Nat.min 3 (count (snd kv))
           /\ Forall (fun m => m <> [] /\ substring m text) (examples (snd kv)))
      (flat_map
         (fun kv =>
            match findall (snd kv) text with
            | [] => []
            | _ :: _ =>
                [(fst kv, {| count := List.length (findall (snd kv) text);
                             examples := firstn 3 (findall (snd kv) text) |})]
            end) ps)).
  { induction ps as [|[name p] ps IH]; intros Hin; [constructor|].
    cbn [flat_map fst snd]. apply Forall_app. split.
    - destruct (findall p text) as [|m ms] eqn:E; constructor; [|constructor].
      exists p. cbn [fst snd count examples]. rewrite E.
      split; [apply Hin; left; reflexivity|].
      split; [reflexivity|]. split; [simpl; lia|].
      split; [reflexivity|]. split; [apply length_firstn|].
      apply Forall_firstn. rewrite <- E. apply findall_substrings.
    - apply IH. intros kv Hk. apply Hin. right. exact Hk. }
  apply Hsub. auto.
Qed.

End ReportFacts.

(** ** Plain text is left alone *)

Section PlainFacts.
Context {U : UnicodeDB}.

Lemma rep_takes cl k lo hi prev s n :
  rep cl k (S lo) hi prev s = Some n ->
  exists c s', s = c :: s' /\ in_class cl c = true.
Proof.
  destruct s as [|c s]; simpl; [discriminate|].
  destruct (may_take hi && in_class cl c) eqn:E; [|discriminate].
  apply andb_prop in E as [_ E]. eauto.
Qed.

Lemma rep_continues cl k :
  forall s lo hi prev n,
    rep cl k lo hi prev s = Some n ->
    exists pre s' prev' m, s = pre ++ s' /\ k prev' s' = Some m.
Proof.
  induction s as [|c s IH]; intros lo hi prev n; simpl.
  - destruct lo; [|discriminate]. intros H. exists [], [], prev, n. auto.
  - destruct (may_take hi && in_class cl c).
    + destruct (rep cl k (Nat.pred lo) (dec_hi hi) (Some c) s) as [m|] eqn:R.
      * intros _. destruct (IH _ _ _ _ R) as (pre & s' & prev' & m' & -> & Hk).
        exists (c :: pre), s', prev', m'. auto.
      * destruct lo; [|discriminate]. intros H.
        exists [], (c :: s), prev, n. auto.
    + destruct lo; [|discriminate]. intros H.
      exists [], (c :: s), prev, n. auto.
Qed.

(** A match of a pattern that demands [q] holds a character that [q]
    accepts. *)
Lemma match_here_demands q p :
  demands q p ->
  forall prev s n, match_here p prev s = Some n -> existsb q s = true.
Proof.
  induction 1 as [nd p Hnd|nd p Hp IH]; intros prev s n; simpl.
  - destruct nd as [|cl [|lo] hi]; try contradiction.
    intros H. apply rep_takes in H as (c & s' & -> & Hc).
    simpl. rewrite (Hnd c Hc). reflexivity.
  - destruct nd as [|cl lo hi].
    + destruct (at_boundary prev s); [apply IH | discriminate].
    + intros H. apply rep_continues in H as (pre & s' & prev' & m & -> & Hk).
      rewrite existsb_app, (IH _ _ _ Hk). apply orb_true_r.
Qed.

Lemma search_from_demands q p :
  demands q p ->
  forall s prev, forallb (fun c => negb (q c)) s = true ->
                 search_from p prev s = None.
Proof.
  intros Hd. induction s as [|c s IH]; intros prev Hs; simpl.
  - destruct (match_here p prev []) as [n|] eqn:E; [|reflexivity].
    apply (match_here_demands q p Hd) in E. discriminate.
  - destruct (match_here p prev (c :: s)) as [n|] eqn:E.
    + apply (match_here_demands q p Hd) in E.
      assert (existsb q (c :: s) = false) as Hno.
      { clear -Hs. induction (c :: s) as [|x l IHl]; [reflexivity|].
        simpl in *. apply andb_prop in Hs as [Hx Hl].
        apply negb_true_iff in Hx. rewrite Hx, (IHl Hl). reflexivity. }
      congruence.
    + simpl in Hs. apply andb_prop in Hs as [_ Hs]. rewrite (IH _ Hs).
      reflexivity.
Qed.

Lemma digit_class c : in_class [Digit] c = true -> pii_char c = true.
Proof.
  unfold in_class. cbn [existsb in_citem].
  rewrite orb_false_r. unfold pii_char. intros ->. reflexivity.
Qed.

Lemma at_class c : in_class [chr "@"] c = true -> pii_char c = true.
Proof.
  unfold in_class, chr. cbn [existsb in_citem].
  change (N_of_ascii "@") with 64.
  rewrite orb_false_r. unfold pii_char. intros ->. apply orb_true_r.
Qed.

(** Every pattern needs a digit or an "@". *)
Lemma PATTERNS_demand : Forall (fun kv => demands pii_char (snd kv)) PATTERNS.
Proof.
  unfold PATTERNS, demands. repeat apply List.Forall_cons; try apply List.Forall_nil;
    cbn [snd].
  - apply List.Exists_cons_tl, List.Exists_cons_hd. exact digit_class.
  - apply List.Exists_cons_tl, List.Exists_cons_hd. exact digit_class.
  - do 2 apply List.Exists_cons_tl. apply List.Exists_cons_hd. exact at_class.
  - apply List.Exists_cons_tl, List.Exists_cons_hd. exact digit_class.
Qed.

Lemma plain_clean s : plain s = true -> clean s = true.
Proof.
  intros Hs. unfold clean, validate_no_pii, detect_pii. simpl str_value.
  generalize PATTERNS_demand. generalize PATTERNS as ps.
  induction ps as [|[name p] ps IH]; intros Hd; [reflexivity|].
  inversion Hd as [|? ? Hp Hps]; subst. simpl in Hp.
  cbn [List.filter snd]. unfold search.
  rewrite (search_from_demands pii_char p Hp s None Hs).
  rewrite bool_decide_eq_false_2 by (intros [? ?]; discriminate).
  apply IH, Hps.
Qed.

Lemma all_leaves_impl (f g : pystr -> bool) x :
  (forall s, f s = true -> g s = true) ->
  all_leaves f x = true -> all_leaves g x = true.
Proof.
  intros Hfg.
  induction x as [s|items IH|elems IH| | | |] using value_induction;
    simpl; auto.
  - induction IH as [|[k v] items Hv _ IHi]; simpl in *; intros H;
      [reflexivity|].
    apply andb_prop in H as [H1 H2].
    rewrite (Hv H1), (IHi H2). reflexivity.
  - induction IH as [|v elems Hv _ IHe]; simpl in *; intros H;
      [reflexivity|].
    apply andb_prop in H as [H1 H2].
    rewrite (Hv H1), (IHe H2). reflexivity.
Qed.

(** X4: text without a decimal digit and without "@" is never touched. A
    value whose string leaves are all such text comes back from [redact]
    as it is, and [validate_no_pii] holds of each of its string leaves. *)
Theorem plain_text_untouched (x : value) :
  all_leaves plain x = true ->
  redact x = x /\ all_leaves clean x = true.
Proof.
  intros H. apply (all_leaves_impl plain clean x plain_clean) in H.
  split; [apply redact_clean, H | exact H].
Qed.

Lemma dict_get_redact items key :
  dict_get (List.map (fun kv => (fst kv, redact (snd kv))) items) key
  = redact <$> dict_get items key.
Proof.
  induction items as [|[k v] items IH]; simpl; [reflexivity|].
  destruct (bool_decide (k = key)); [reflexivity | exact IH].
Qed.

Lemma list_get_redact elems i :
  list_get (List.map redact elems) i = redact <$> list_get elems i.
Proof.
  unfold list_get. rewrite length_map.
  destruct (_ <? 0)%Z; [reflexivity|]. apply nth_error_map.
Qed.

Lemma get_path_commutes (path : list subscript) :
  forall x, get_path (redact x) path = redact <$> get_path x path.
Proof.
  induction path as [|[k|i] path IH]; intros x; [reflexivity| |].
  - destruct x; try reflexivity. cbn [redact get_path].
    rewrite dict_get_redact.
    destruct (dict_get items k); [apply IH | reflexivity].
  - destruct x; try reflexivity. cbn [redact get_path].
    rewrite list_get_redact.
    destruct (list_get elems i); [apply IH | reflexivity].
Qed.

(** X9: [redact] commutes with subscripts. Along any path of dict keys and
    list indices (negative indices included), redact(x)[...] is
    redact(x[...]); a key or an index is missing in redact(x) exactly when
    it is missing in x. *)
Theorem get_path_redact (path : list subscript) (x : value) :
  get_path (redact x) path = redact <$> get_path x path.
Proof. apply get_path_commutes. Qed.

End PlainFacts.

Lemma plain_text_untouched_note :
  let x := VDict [(cps "note", VStr (cps "Customer prefers morning visits"));
                  (cps "cost", VInt 8500)] in
  @all_leaves (@plain ascii_db) x = true /\
  @redact ascii_db x = x /\ @all_leaves (@clean ascii_db) x = true.
Proof.
  split; [reflexivity|].
  apply (@plain_text_untouched ascii_db). reflexivity.
Defined.

(** ** A second pass of [redact] *)

Section Idempotence.
Context {U : UnicodeDB}.

Lemma ending_app prev a b : ending prev (a ++ b) = ending (ending prev a) b.
Proof. unfold ending. apply fold_left_app. Qed.

Lemma ending_nonempty prev prev' a : a <> [] -> ending prev a = ending prev' a.
Proof. destruct a as [|c a]; [congruence | reflexivity]. Qed.

Lemma word_at_app a r : a <> [] -> word_at (a ++ r) = word_at a.
Proof. destruct a; [congruence | reflexivity]. Qed.

(** *** The matcher finds a match exactly where there is one *)

Lemma rep_sound cl k (Q : option N -> pystr -> pystr -> Prop) :
  (forall prev s n, k prev s = Some n ->
     exists b r, s = b ++ r /\ List.length b = n /\ Q prev b r) ->
  forall s lo hi prev n,
    rep cl k lo hi prev s = Some n ->
    exists a b r,
      s = a ++ b ++ r /\ List.length (a ++ b) = n
      /\ forallb (in_class cl) a = true
      /\ (lo <= List.length a)%nat /\ within hi (List.length a)
      /\ Q (ending prev a) b r.
Proof.
  intros Hk.
  assert (Hstop : forall s lo hi prev n,
    match lo with O => k prev s | S _ => None end = Some n ->
    exists a b r,
      s = a ++ b ++ r /\ List.length (a ++ b) = n
      /\ forallb (in_class cl) a = true
      /\ (lo <= List.length a)%nat /\ within hi (List.length a)
      /\ Q (ending prev a) b r).
  { intros s lo hi prev n H. destruct lo; [|discriminate].
    destruct (Hk _ _ _ H) as (b & r & -> & Hn & HQ).
    exists [], b, r. repeat split; auto. destruct hi; simpl; lia. }
  induction s as [|c s IH]; intros lo hi prev n; simpl.
  - apply Hstop.
  - destruct (may_take hi && in_class cl c) eqn:E; [|apply Hstop].
    destruct (rep cl k (Nat.pred lo) (dec_hi hi) (Some c) s) as [m|] eqn:R;
      [|apply Hstop].
    intros [= <-]. apply andb_prop in E as [Ehi Ec].
    destruct (IH _ _ _ _ R) as (a & b & r & -> & Hn & Ha & Hlo & Hhi & HQ).
    exists (c :: a), b, r. simpl. rewrite Ec, Ha.
    repeat split; auto; try lia.
    destruct hi as [[|h]|]; simpl in *; try discriminate; lia.
Qed.

Lemma match_here_sound p :
  forall prev s n,
    match_here p prev s = Some n ->
    exists a r, s = a ++ r /\ List.length a = n /\ Matches p prev a r.
Proof.
  induction p as [|nd p IH]; intros prev s n; simpl.
  - intros [= <-]. exists [], s. repeat split. constructor.
  - destruct nd as [|cl lo hi].
    + destruct (at_boundary prev s) eqn:E; [|discriminate].
      intros H. destruct (IH _ _ _ H) as (a & r & -> & Hn & Hm).
      exists a, r. repeat split; auto. constructor; assumption.
    + intros H.
      destruct (rep_sound cl (match_here p) (Matches p) IH _ _ _ _ _ H)
        as (a & b & r & -> & Hn & Ha & Hlo & Hhi & Hm).
      exists (a ++ b), r. rewrite <- app_assoc. repeat split; auto.
      constructor; assumption.
Qed.

Lemma rep_stop cl k hi prev s :
  is_Some (k prev s) -> is_Some (rep cl k 0 hi prev s).
Proof.
  intros Hk. destruct s as [|c s]; simpl; [exact Hk|].
  destruct (may_take hi && in_class cl c); [|exact Hk].
  destruct (rep cl k 0 (dec_hi hi) (Some c) s); [eauto | exact Hk].
Qed.

Lemma rep_complete cl k rest :
  forall a lo hi prev,
    forallb (in_class cl) a = true ->
    (lo <= List.length a)%nat -> within hi (List.length a) ->
    is_Some (k (ending prev a) rest) ->
    is_Some (rep cl k lo hi prev (a ++ rest)).
Proof.
  induction a as [|c a IH]; intros lo hi prev Ha Hlo Hhi Hk.
  - simpl in Hlo. assert (lo = 0%nat) as -> by lia. apply rep_stop, Hk.
  - simpl in Ha. apply andb_prop in Ha as [Hc Ha]. cbn [app rep].
    assert (may_take hi = true) as ->.
    { destruct hi as [[|h]|]; simpl in *; auto; lia. }
    rewrite Hc. cbn [andb].
    destruct (IH (Nat.pred lo) (dec_hi hi) (Some c) Ha) as [n Hn].
    + simpl in Hlo. lia.
    + destruct hi as [h|]; simpl in *; auto; lia.
    + exact Hk.
    + rewrite Hn. eauto.
Qed.

Lemma match_here_complete p prev a r :
  Matches p prev a r -> is_Some (match_here p prev (a ++ r)).
Proof.
  induction 1 as [prev r|p prev a r Hb Hm IH|cl lo hi p prev a b r Ha Hlo Hhi Hm IH];
    simpl.
  - eauto.
  - rewrite Hb. exact IH.
  - rewrite <- app_assoc. apply rep_complete; assumption.
Qed.

(** *** What a match depends on *)

Lemma matches_context p prev a r :
  Matches p prev a r ->
  forall prev' r',
    word_before prev' = word_before prev -> word_at r' = word_at r ->
    Matches p prev' a r'.
Proof.
  induction 1 as [prev r|p prev a r Hb Hm IH|cl lo hi p prev a b r Ha Hlo Hhi Hm IH];
    intros prev' r' Hp Hr.
  - constructor.
  - constructor; [|apply IH; assumption].
    rewrite <- Hb. unfold at_boundary. rewrite Hp. f_equal.
    destruct a; [exact Hr | reflexivity].
  - constructor; try assumption. apply IH; [|exact Hr].
    destruct a; [exact Hp | reflexivity].
Qed.

Lemma matches_free_start p :
  free_start p = true ->
  forall prev a r, Matches p prev a r -> forall prev', Matches p prev' a r.
Proof.
  induction p as [|nd p IH]; intros Hf prev a r Hm prev'.
  - inversion Hm; subst. constructor.
  - destruct nd as [|cl lo hi]; [discriminate|].
    inversion Hm as [| |? ? ? ? ? a1 b ? Ha Hlo Hhi Hm']; subst.
    constructor; try assumption.
    destruct a1 as [|c a1]; [|exact Hm'].
    simpl in Hlo. destruct lo; [|lia]. apply (IH Hf _ _ _ Hm').
Qed.

Lemma matches_accepts p prev a r :
  Matches p prev a r -> forall c, In c a -> accepts p c = true.
Proof.
  induction 1 as [prev r|p prev a r Hb Hm IH|cl lo hi p prev a b r Ha Hlo Hhi Hm IH];
    intros c Hc; simpl.
  - destruct Hc.
  - apply IH, Hc.
  - apply in_app_or in Hc as [Hc|Hc].
    + rewrite forallb_forall in Ha. rewrite (Ha c Hc). reflexivity.
    + rewrite (IH c Hc). apply orb_true_r.
Qed.

Lemma matches_demands q p :
  demands q p ->
  forall prev a r, Matches p prev a r -> existsb q a = true.
Proof.
  induction 1 as [nd p Hnd|nd p Hp IH]; intros prev a r Hm.
  - destruct nd as [|cl [|lo] hi]; try contradiction.
    inversion Hm as [| |? ? ? ? ? a1 b ? Ha Hlo Hhi Hm']; subst.
    destruct a1 as [|c a1]; [simpl in Hlo; lia|].
    simpl in Ha. apply andb_prop in Ha as [Hc _].
    simpl. rewrite (Hnd c Hc). reflexivity.
  - inversion Hm as [|? ? ? ? Hb Hm'|? ? ? ? ? a1 b ? Ha Hlo Hhi Hm']; subst.
    + apply (IH _ _ _ Hm').
    + rewrite existsb_app, (IH _ _ _ Hm'). apply orb_true_r.
Qed.

Lemma matches_nonempty p :
  consumes p = true -> forall prev a r, Matches p prev a r -> a <> [].
Proof.
  induction p as [|nd p IH]; [discriminate|]. intros Hc prev a r Hm.
  inversion Hm as [|? ? ? ? Hb Hm'|? ? ? ? ? a1 b ? Ha Hlo Hhi Hm']; subst.
  - apply (IH Hc _ _ _ Hm').
  - simpl in Hc. destruct lo as [|lo].
    + destruct hi as [[|[|h]]|]; try discriminate.
      specialize (IH Hc _ _ _ Hm'). destruct a1; simpl; [exact IH | discriminate].
    + destruct a1; simpl in *; [lia | discriminate].
Qed.

Lemma matches_closes p :
  closes p ->
  forall prev a r,
    Matches p prev a r -> at_boundary (ending prev a) r = true.
Proof.
  intros (p0 & ->).
  induction p0 as [|nd p0 IH]; intros prev a r Hm.
  - inversion Hm as [|? ? ? ? Hb Hm'|]; subst.
    inversion Hm'; subst. exact Hb.
  - simpl in Hm.
    inversion Hm as [|? ? ? ? Hb Hm'|? ? ? ? ? a1 b ? Ha Hlo Hhi Hm']; subst.
    + apply (IH _ _ _ Hm').
    + rewrite ending_app. apply (IH _ _ _ Hm').
Qed.

Lemma matches_opens p prev a r :
  opens p = true -> Matches p prev a r -> at_boundary prev (a ++ r) = true.
Proof.
  destruct p as [|[|] p]; try discriminate. intros _ Hm.
  inversion Hm; subst. assumption.
Qed.

(** *** Every position of a string *)

Lemma everywhere_impl (P Q : option N -> pystr -> Prop) :
  (forall prev s, P prev s -> Q prev s) ->
  forall s prev, everywhere P prev s -> everywhere Q prev s.
Proof.
  intros H. induction s as [|c s IH]; intros prev [Hp Hs]; split; auto.
Qed.

Lemma everywhere_and (P Q : option N -> pystr -> Prop) :
  forall s prev,
    everywhere P prev s -> everywhere Q prev s ->
    everywhere (fun pv t => P pv t /\ Q pv t) prev s.
Proof.
  induction s as [|c s IH]; intros prev [Hp Hs] [Hq Hs']; split; auto.
Qed.

Lemma everywhere_all (P : option N -> pystr -> Prop) :
  (forall prev s, P prev s) -> forall s prev, everywhere P prev s.
Proof. intros H. induction s as [|c s IH]; intros prev; split; auto. Qed.

Lemma everywhere_skip (P : option N -> pystr -> Prop) :
  forall a prev s, everywhere P prev (a ++ s) -> everywhere P (ending prev a) s.
Proof.
  induction a as [|c a IH]; intros prev s H; [exact H|].
  destruct H as [_ H]. apply (IH (Some c) s H).
Qed.

Lemma everywhere_app (P : option N -> pystr -> Prop) o :
  forall a prev,
    (forall t1 t2, a = t1 ++ t2 -> t2 <> [] -> P (ending prev t1) (t2 ++ o)) ->
    everywhere P (ending prev a) o ->
    everywhere P prev (a ++ o).
Proof.
  induction a as [|c a IH]; intros prev Ha Ho; [exact Ho|].
  split.
  - apply (Ha [] (c :: a)); [reflexivity | discriminate].
  - apply IH; [|exact Ho]. intros t1 t2 -> Ht2.
    apply (Ha (c :: t1) t2); [reflexivity | exact Ht2].
Qed.

Lemma search_from_everywhere q s :
  forall prev,
    search_from q prev s = None
    <-> everywhere (fun pv t => ~ found q (fun _ _ => true) pv t) prev s.
Proof.
  induction s as [|c s IH]; intros prev; simpl.
  - destruct (match_here q prev []) as [n|] eqn:E; split.
    + discriminate.
    + intros [H _]. exfalso. apply H. split; [reflexivity | rewrite E; eauto].
    + intros _. split; [|exact I]. intros [_ [n Hn]]. congruence.
    + reflexivity.
  - destruct (match_here q prev (c :: s)) as [n|] eqn:E; split.
    + discriminate.
    + intros [H _]. exfalso. apply H. split; [reflexivity | rewrite E; eauto].
    + intros H. split.
      * intros [_ [n Hn]]. congruence.
      * apply IH. destruct (search_from q (Some c) s) as [[i n]|];
          [discriminate | reflexivity].
    + intros [_ H]. apply IH in H. rewrite H. reflexivity.
Qed.

Lemma glued_from_everywhere s :
  forall prev,
    glued_from prev s = false
    <-> everywhere (fun pv t => ~ found phone_pattern andb pv t) prev s.
Proof.
  assert (Hat : forall pv t,
    glued_at pv t = false <-> ~ found phone_pattern andb pv t).
  { intros pv t. unfold glued_at, found. split.
    - intros H [HG Hm]. rewrite HG, bool_decide_eq_true_2 in H by exact Hm.
      discriminate.
    - intros H. destruct (word_before pv && word_at t) eqn:HG; [|reflexivity].
      simpl. apply bool_decide_eq_false_2. intros Hm. apply H. auto. }
  induction s as [|c s IH]; intros prev; simpl.
  - rewrite orb_false_r, Hat. tauto.
  - rewrite orb_false_iff, Hat, IH. tauto.
Qed.

(** *** [re.sub] as a cut *)

Lemma sub_from_skip p repl :
  forall s prev skip,
    (skip <= List.length s)%nat ->
    sub_from p repl prev s skip
    = sub_from p repl (ending prev (firstn skip s)) (skipn skip s) 0.
Proof.
  induction s as [|c s IH]; intros prev skip Hlen.
  - simpl in Hlen. assert (skip = 0%nat) as -> by lia. reflexivity.
  - destruct skip as [|skip]; [reflexivity|]. simpl in Hlen.
    cbn [sub_from firstn skipn]. rewrite IH by lia. reflexivity.
Qed.

Lemma sub_cut k repl (P : option N -> pystr -> Prop) :
  consumes k = true -> closes k ->
  forall n s prev,
    (List.length s <= n)%nat ->
    everywhere
      (fun pv t =>
         (match_here k pv t = None -> P pv t)
         /\ (is_Some (match_here k pv t) ->
             word_before pv = true -> word_at t = false))
      prev s ->
    Cut P repl prev s (sub_from k repl prev s 0).
Proof.
  intros Hc Hcl. induction n as [|n IH]; intros s prev Hlen Hall.
  - destruct s; [|simpl in Hlen; lia]. simpl.
    destruct (match_here k prev []) as [[|m]|] eqn:E; try constructor.
    apply match_here_le in E. simpl in E. lia.
  - destruct s as [|c s].
    { simpl. destruct (match_here k prev []) as [[|m]|] eqn:E; try constructor.
      apply match_here_le in E. simpl in E. lia. }
    cbn [sub_from]. destruct Hall as [[Hkeep Hstart] Hall].
    destruct (match_here k prev (c :: s)) as [[|m]|] eqn:E.
    + apply (match_here_nonempty k Hc) in E. lia.
    + destruct (match_here_sound k _ _ _ E) as (a & r & Hs & Hn & Hm).
      destruct a as [|c' a]; [discriminate|].
      injection Hs as <- ->. injection Hn as <-.
      rewrite sub_from_skip by (rewrite length_app; lia).
      rewrite firstn_app, Nat.sub_diag, firstn_all, firstn_O, app_nil_r.
      rewrite skipn_app, Nat.sub_diag, skipn_all, skipn_O. cbn [app].
      apply (cut_replace P repl prev (c :: a) r).
      * discriminate.
      * intros Hw. specialize (Hstart ltac:(eauto) Hw). exact Hstart.
      * apply (matches_closes k Hcl _ _ _ Hm).
      * apply IH.
        -- simpl in Hlen. rewrite length_app in Hlen. lia.
        -- apply (everywhere_skip _ a (Some c) r Hall).
    + apply cut_keep; [apply Hkeep; reflexivity|].
      apply IH; [simpl in Hlen; lia | exact Hall].
Qed.

Lemma cut_span P repl repl' :
  repl = 91 :: repl' ->
  forall a prev s o ro,
    Cut P repl prev s o -> o = a ++ ro -> ~ In 91 a ->
    exists rs, s = a ++ rs /\ Cut P repl (ending prev a) rs ro.
Proof.
  intros ->. induction a as [|c a IH]; intros prev s o ro Hcut Ho Hno.
  - simpl in Ho. subst o. exists s. auto.
  - destruct Hcut as [prev|prev c' s' o' Hp Hcut'|prev m s' o' Hm Hg Hb Hcut'].
    + discriminate.
    + injection Ho as -> ->.
      destruct (IH (Some c) s' _ ro Hcut' eq_refl) as (rs & -> & Hrs).
      { intros Hin. apply Hno. right. exact Hin. }
      exists rs. auto.
    + injection Ho as <- _. exfalso. apply Hno. left. reflexivity.
Qed.

Lemma cut_next P repl repl' prev s o :
  repl = 91 :: repl' ->
  Cut P repl prev s o ->
  (word_at o = false -> word_before prev = true) ->
  word_at s = word_at o.
Proof.
  intros -> Hcut Hw.
  destruct Hcut as [prev|prev c' s' o' Hp Hcut'|prev m s' o' Hm Hg Hb Hcut'];
    try reflexivity.
  rewrite (word_at_app m s' Hm), (Hg (Hw eq_refl)). reflexivity.
Qed.

(** A match in the output that starts at a kept character is a match in
    the input. *)
Lemma cut_transfer q P repl repl' prev prevo s o a ro :
  tame q -> repl = 91 :: repl' ->
  Cut P repl prev s o ->
  o = a ++ ro -> Matches q prevo a ro ->
  stands_for prevo prev s ->
  exists rs, s = a ++ rs /\ Matches q prev a rs.
Proof.
  intros Hq Hrepl Hcut Ho Hm Hleft.
  assert (Hne : a <> []) by apply (matches_nonempty q (tame_consumes q Hq) _ _ _ Hm).
  assert (Hno : ~ In 91 a).
  { intros Hin. apply (matches_accepts q _ _ _ Hm) in Hin.
    rewrite (tame_open_bracket q Hq) in Hin. discriminate. }
  destruct (cut_span P repl repl' Hrepl a prev s o ro Hcut Ho Hno)
    as (rs & -> & Hrs).
  exists rs. split; [reflexivity|].
  pose proof (matches_closes q (tame_closes q Hq) _ _ _ Hm) as Hend.
  rewrite (ending_nonempty prevo prev a Hne) in Hend.
  assert (Hnext : word_at rs = word_at ro).
  { apply (cut_next P repl repl' _ _ _ Hrepl Hrs). intros Hro.
    unfold at_boundary in Hend. rewrite Hro in Hend.
    destruct (word_before (ending prev a)); [reflexivity | discriminate]. }
  destruct Hleft as [Hw|(Hwo & Hs)].
  - apply (matches_context q _ _ _ Hm); [symmetry; exact Hw | exact Hnext].
  - destruct (tame_start q Hq) as [Hop|Hfree].
    + exfalso. pose proof (matches_opens q _ _ _ Hop Hm) as Hb.
      unfold at_boundary in Hb. rewrite Hwo in Hb.
      rewrite (word_at_app a ro Hne) in Hb.
      rewrite (word_at_app a rs Hne) in Hs. simpl in Hb. congruence.
    + apply (matches_context q prev a ro); [|reflexivity | exact Hnext].
      apply (matches_free_start q Hfree _ _ _ Hm).
Qed.

Lemma prefix_before {A} (c : A) :
  forall a l1 l2 r,
    l1 ++ c :: l2 = a ++ r -> ~ In c a -> exists x, l1 = a ++ x.
Proof.
  induction a as [|d a IH]; intros l1 l2 r E Hno; [exists l1; reflexivity|].
  destruct l1 as [|e l1]; simpl in E.
  - injection E as -> _. exfalso. apply Hno. left. reflexivity.
  - injection E as -> E. destruct (IH l1 l2 r E) as [x ->].
    + intros Hin. apply Hno. right. exact Hin.
    + exists x. reflexivity.
Qed.

(** No pattern matches from inside a placeholder. *)
Lemma mark_no_match q repl :
  tame q -> mark repl ->
  forall t1 t2 o prev,
    repl = t1 ++ t2 -> t2 <> [] -> match_here q prev (t2 ++ o) = None.
Proof.
  intros Hq (inner & Hrepl & Hplain) t1 t2 o prev Ht Hne.
  destruct (match_here q prev (t2 ++ o)) as [n|] eqn:E; [|reflexivity].
  exfalso.
  destruct (match_here_sound q _ _ _ E) as (a & r & Hs & _ & Hm).
  destruct (exists_last Hne) as (t2' & z & ->).
  assert (z = 93) as ->.
  { rewrite Hrepl in Ht. change (91 :: inner ++ [93]) with ((91 :: inner) ++ [93]) in Ht.
    rewrite app_assoc in Ht. apply app_inj_tail in Ht as [_ Ht]. congruence. }
  rewrite <- app_assoc in Hs. simpl in Hs.
  destruct (prefix_before 93 a t2' o r Hs) as [x ->].
  { intros Hin. apply (matches_accepts q _ _ _ Hm) in Hin.
    rewrite (tame_close_bracket q Hq) in Hin. discriminate. }
  pose proof (matches_demands pii_char q (tame_demands q Hq) _ _ _ Hm) as Hd.
  apply existsb_exists in Hd as (c & Hin & Hc).
  unfold plain in Hplain. rewrite forallb_forall in Hplain.
  specialize (Hplain c). rewrite Hc in Hplain.
  assert (In c repl) as Hrin.
  { rewrite Ht. apply in_or_app. right. apply in_or_app. left.
    apply in_or_app. left. exact Hin. }
  specialize (Hplain Hrin). discriminate.
Qed.

(** Nothing is found in the output that was not in the input. *)
Lemma cut_no_new q G repl :
  tame q -> mark repl ->
  (forall wa, G false wa = true -> G true wa = true) ->
  forall prev s o,
    Cut (fun pv t => ~ found q G pv t) repl prev s o ->
    forall prevo,
      stands_for prevo prev s ->
      everywhere (fun pv t => ~ found q G pv t) prevo o.
Proof.
  intros Hq Hmark HG.
  pose proof Hmark as (inner & Hrepl & Hplain).
  induction 1 as [prev|prev c s o Hp Hcut IH|prev m s o Hm Hg Hb Hcut IH];
    intros prevo Hleft.
  - split; [|exact I]. intros [_ [n Hn]].
    pose proof (match_here_le _ _ _ _ Hn) as Hle.
    apply (match_here_nonempty q (tame_consumes q Hq)) in Hn. simpl in Hle. lia.
  - split.
    + intros [Hguard [n Hn]]. apply Hp.
      destruct (match_here_sound q _ _ _ Hn) as (a & ro & Ho & _ & Hma).
      destruct (cut_transfer q _ repl (inner ++ [93]) prev prevo (c :: s) (c :: o)
                  a ro Hq Hrepl (cut_keep _ _ _ _ _ _ Hp Hcut) Ho Hma Hleft)
        as (rs & Hs & Hms).
      split.
      * simpl in *. destruct Hleft as [Hw|(Hwo & _)].
        -- rewrite <- Hw. exact Hguard.
        -- rewrite Hwo in Hguard. destruct (word_before prev);
             [apply HG|]; exact Hguard.
      * rewrite Hs. apply match_here_complete, Hms.
    + apply IH. left. reflexivity.
  - apply everywhere_app.
    + intros t1 t2 Ht Hne [_ [n Hn]].
      rewrite (mark_no_match q repl Hq Hmark t1 t2 o _ Ht Hne) in Hn.
      discriminate.
    + apply IH.
      assert (Hlast : word_before (ending prevo repl) = false).
      { rewrite Hrepl.
        change (91 :: inner ++ [93]) with ((91 :: inner) ++ [93]).
        rewrite ending_app. reflexivity. }
      unfold stands_for. rewrite Hlast. unfold at_boundary in Hb.
      destruct (word_before (ending prev m)); [right | left; reflexivity].
      split; [reflexivity|]. destruct (word_at s); [discriminate | reflexivity].
Qed.

(** One [re.sub] pass: what is not found before is not found after. *)
Lemma sub_no_new k q G repl s :
  tame k -> tame q -> mark repl ->
  (forall wa, G false wa = true -> G true wa = true) ->
  everywhere
    (fun pv t => match_here k pv t = None -> ~ found q G pv t) None s ->
  everywhere
    (fun pv t => is_Some (match_here k pv t) ->
                 word_before pv = true -> word_at t = false) None s ->
  everywhere (fun pv t => ~ found q G pv t) None (sub k repl s).
Proof.
  intros Hk Hq Hmark HG Hkeep Hstart.
  apply (cut_no_new q G repl Hq Hmark HG None s); [|left; reflexivity].
  apply (sub_cut k repl _ (tame_consumes k Hk) (tame_closes k Hk)
           (List.length s) s None (le_n _)).
  apply everywhere_and; assumption.
Qed.

(** A pattern that starts with [\b] matches at no position between two
    word characters. *)
Lemma opens_unglued k :
  opens k = true ->
  forall s prev,
    everywhere
      (fun pv t => is_Some (match_here k pv t) ->
                   word_before pv = true -> word_at t = false) prev s.
Proof.
  intros Hop. apply everywhere_all. intros prev s [n Hn] Hw.
  destruct (match_here_sound k _ _ _ Hn) as (a & r & -> & _ & Hm).
  pose proof (matches_opens k _ _ _ Hop Hm) as Hb.
  unfold at_boundary in Hb. rewrite Hw in Hb.
  destruct (word_at (a ++ r)); [discriminate | reflexivity].
Qed.

Lemma unglued_starts s :
  everywhere (fun pv t => ~ found phone_pattern andb pv t) None s ->
  everywhere
    (fun pv t => is_Some (match_here phone_pattern pv t) ->
                 word_before pv = true -> word_at t = false) None s.
Proof.
  apply everywhere_impl. intros prev t H Hm Hw.
  destruct (word_at t) eqn:E; [|reflexivity].
  exfalso. apply H. split; [|exact Hm]. simpl. rewrite Hw, E. reflexivity.
Qed.

End Idempotence.

Section Pipeline.
Context {U : UnicodeDB}.

Lemma PATTERNS_tame : Forall (fun kv => tame (snd kv)) PATTERNS.
Proof.
  pose proof PATTERNS_demand as Hd. unfold PATTERNS in *.
  repeat (apply List.Forall_cons;
          [apply Forall_inv in Hd as Hd1; cbn [snd] in *;
           split; [reflexivity | | | reflexivity | reflexivity | exact Hd1]
          |apply Forall_inv_tail in Hd]);
    try apply List.Forall_nil;
    try (left; reflexivity); try (right; reflexivity).
  - exists [Boundary; Exactly 3 [Digit]; Lit "-"; Exactly 2 [Digit]; Lit "-";
            Exactly 4 [Digit]].
    reflexivity.
  - exists [Boundary; Exactly 4 [Digit]; Opt [chr "-"; Space];
            Exactly 4 [Digit]; Opt [chr "-"; Space];
            Exactly 4 [Digit]; Opt [chr "-"; Space];
            Exactly 4 [Digit]].
    reflexivity.
  - exists [Boundary;
            AtLeast 1 [rng "a" "z"; rng "A" "Z"; rng "0" "9";
                       chr "."; chr "_"; chr "%"; chr "+"; chr "-"];
            Lit "@";
            AtLeast 1 [rng "a" "z"; rng "A" "Z"; rng "0" "9"; chr "."; chr "-"];
            Lit ".";
            AtLeast 2 [rng "a" "z"; rng "A" "Z"]].
    reflexivity.
  - exists [Opt [chr "("]; Exactly 3 [Digit]; Opt [chr ")"];
            Opt [chr "-"; chr "."; Space];
            Exactly 3 [Digit]; Opt [chr "-"; chr "."; Space];
            Exactly 4 [Digit]].
    reflexivity.
Qed.

Lemma REPLACEMENTS_mark :
  Forall (fun kv => mark (replacement_of (fst kv))) PATTERNS.
Proof.
  unfold PATTERNS. repeat apply List.Forall_cons; try apply List.Forall_nil.
  - exists (cps "REDACTED_SSN"). split; reflexivity.
  - exists (cps "REDACTED_CC"). split; reflexivity.
  - exists (cps "REDACTED_EMAIL"). split; reflexivity.
  - exists (cps "REDACTED_PHONE"). split; reflexivity.
Qed.

(** One pass leaves what it does not find. *)
Lemma sub_keeps k q G repl t :
  tame k -> tame q -> mark repl ->
  (forall wa, G false wa = true -> G true wa = true) ->
  everywhere
    (fun pv t => is_Some (match_here k pv t) ->
                 word_before pv = true -> word_at t = false) None t ->
  everywhere (fun pv t => ~ found q G pv t) None t ->
  everywhere (fun pv t => ~ found q G pv t) None (sub k repl t).
Proof.
  intros Hk Hq Hm HG Hstart Hnone.
  apply (sub_no_new k q G repl t Hk Hq Hm HG); [|exact Hstart].
  revert Hnone. apply everywhere_impl. auto.
Qed.

(** One pass removes what it looks for. *)
Lemma sub_removes k repl t :
  tame k -> mark repl ->
  everywhere
    (fun pv t => is_Some (match_here k pv t) ->
                 word_before pv = true -> word_at t = false) None t ->
  search k (sub k repl t) = None.
Proof.
  intros Hk Hm Hstart. apply search_from_everywhere.
  apply (sub_no_new k k _ repl t Hk Hk Hm); [auto | |exact Hstart].
  apply everywhere_all. intros prev s Hnone [_ [n Hn]]. congruence.
Qed.

Lemma reaches_phone_unfold s :
  reaches_phone s =
  sub email_pattern (cps "[REDACTED_EMAIL]")
    (sub credit_card_pattern (cps "[REDACTED_CC]")
      (sub ssn_pattern (cps "[REDACTED_SSN]") s)).
Proof. reflexivity. Qed.

Lemma PATTERNS_each :
  (tame ssn_pattern /\ mark (cps "[REDACTED_SSN]")) /\
  (tame credit_card_pattern /\ mark (cps "[REDACTED_CC]")) /\
  (tame email_pattern /\ mark (cps "[REDACTED_EMAIL]")) /\
  (tame phone_pattern /\ mark (cps "[REDACTED_PHONE]")).
Proof.
  pose proof PATTERNS_tame as Ht. pose proof REPLACEMENTS_mark as Hm.
  unfold PATTERNS in Ht, Hm.
  apply Forall_cons_1 in Ht as [T1 Ht]. apply Forall_cons_1 in Ht as [T2 Ht].
  apply Forall_cons_1 in Ht as [T3 Ht]. apply Forall_cons_1 in Ht as [T4 _].
  apply Forall_cons_1 in Hm as [M1 Hm]. apply Forall_cons_1 in Hm as [M2 Hm].
  apply Forall_cons_1 in Hm as [M3 Hm]. apply Forall_cons_1 in Hm as [M4 _].
  auto.
Qed.

(** The passes before the phone pattern glue no phone number. *)
Lemma unglued_reaches_phone s :
  unglued s = true -> unglued (reaches_phone s) = true.
Proof.
  intros Hs. apply negb_true_iff, glued_from_everywhere in Hs.
  apply negb_true_iff, glued_from_everywhere.
  destruct PATTERNS_each as ((T1 & M1) & (T2 & M2) & (T3 & M3) & (T4 & M4)).
  assert (Hand : forall wa, andb false wa = true -> andb true wa = true)
    by (intros wa; discriminate).
  rewrite reaches_phone_unfold.
  apply sub_keeps; auto; [apply opens_unglued; reflexivity|].
  apply sub_keeps; auto; [apply opens_unglued; reflexivity|].
  apply sub_keeps; auto. apply opens_unglued. reflexivity.
Qed.

(** Where no phone number is glued in the text that reaches the phone
    pattern, one pass leaves no match of any pattern. *)
Lemma _redact_string_unglued s :
  unglued (reaches_phone s) = true ->
  _redact_string (_redact_string s) = _redact_string s.
Proof.
  intros U3. apply negb_true_iff, glued_from_everywhere in U3.
  destruct PATTERNS_each as ((T1 & M1) & (T2 & M2) & (T3 & M3) & (T4 & M4)).
  assert (Hall : forall wa : bool, true = true -> true = true) by auto.
  rewrite reaches_phone_unfold in U3.
  rewrite (_redact_string_unfold s).
  set (s1 := sub ssn_pattern (cps "[REDACTED_SSN]") s) in *.
  set (s2 := sub credit_card_pattern (cps "[REDACTED_CC]") s1) in *.
  set (s3 := sub email_pattern (cps "[REDACTED_EMAIL]") s2) in *.
  set (s4 := sub phone_pattern (cps "[REDACTED_PHONE]") s3).
  (* each pattern is removed by its pass and stays away *)
  assert (A1 : search ssn_pattern s1 = None).
  { apply sub_removes; auto. apply opens_unglued. reflexivity. }
  assert (A2 : search ssn_pattern s2 = None).
  { apply search_from_everywhere. apply sub_keeps; auto.
    - apply opens_unglued. reflexivity.
    - apply search_from_everywhere, A1. }
  assert (A3 : search ssn_pattern s3 = None).
  { apply search_from_everywhere. apply sub_keeps; auto.
    - apply opens_unglued. reflexivity.
    - apply search_from_everywhere, A2. }
  assert (A4 : search ssn_pattern s4 = None).
  { apply search_from_everywhere. apply sub_keeps; auto.
    - apply unglued_starts, U3.
    - apply search_from_everywhere, A3. }
  assert (B2 : search credit_card_pattern s2 = None).
  { apply sub_removes; auto. apply opens_unglued. reflexivity. }
  assert (B3 : search credit_card_pattern s3 = None).
  { apply search_from_everywhere. apply sub_keeps; auto.
    - apply opens_unglued. reflexivity.
    - apply search_from_everywhere, B2. }
  assert (B4 : search credit_card_pattern s4 = None).
  { apply search_from_everywhere. apply sub_keeps; auto.
    - apply unglued_starts, U3.
    - apply search_from_everywhere, B3. }
  assert (C3 : search email_pattern s3 = None).
  { apply sub_removes; auto. apply opens_unglued. reflexivity. }
  assert (C4 : search email_pattern s4 = None).
  { apply search_from_everywhere. apply sub_keeps; auto.
    - apply unglued_starts, U3.
    - apply search_from_everywhere, C3. }
  assert (D4 : search phone_pattern s4 = None).
  { apply sub_removes; auto. apply unglued_starts, U3. }
  rewrite (_redact_string_unfold s4).
  rewrite (sub_no_match _ _ _ A4), (sub_no_match _ _ _ B4),
    (sub_no_match _ _ _ C4), (sub_no_match _ _ _ D4).
  reflexivity.
Qed.

Lemma redact_unglued x :
  all_leaves (fun s => unglued (reaches_phone s)) x = true ->
  redact (redact x) = redact x.
Proof.
  induction x as [s|items IH|elems IH| | | |] using value_induction;
    simpl; intros H; try reflexivity.
  - f_equal. apply _redact_string_unglued, H.
  - f_equal. induction IH as [|[k v] items Hv _ IHitems]; [reflexivity|].
    simpl in *. apply andb_prop in H as [H1 H2].
    rewrite Hv, IHitems by assumption. reflexivity.
  - f_equal. induction IH as [|v elems Hv _ IHelems]; [reflexivity|].
    simpl in *. apply andb_prop in H as [H1 H2].
    rewrite Hv, IHelems by assumption. reflexivity.
Qed.

End Pipeline.

Section SecondPass.
Context {U : UnicodeDB}.

(** C2 (amended): a second pass of [redact] changes nothing, for every
    value in whose string leaves no phone number is glued to a word before
    it: in the text that reaches the phone pattern (the leaf after the ssn,
    credit_card and email substitutions), the phone pattern matches at no
    digit that directly follows a word character. *)
Theorem redact_idempotent_unglued (x : value) :
  all_leaves (fun s => unglued (reaches_phone s)) x = true ->
  redact (redact x) = redact x.
Proof. apply redact_unglued. Qed.

(** A leaf with no glued phone number before the loop has none in the text
    that reaches the phone pattern. *)
Lemma all_leaves_unglued (x : value) :
  all_leaves unglued x = true ->
  all_leaves (fun s => unglued (reaches_phone s)) x = true.
Proof. apply all_leaves_impl. exact unglued_reaches_phone. Qed.

End SecondPass.

Lemma redact_idempotent_unglued_record :
  let x :=
    VDict
      [(cps "note",
        VStr (cps "call 555-123-4567 or (555) 987-6543, mail a@b.cc"));
       (cps "cards", VList [VStr (cps "1234567890123456");
                            VStr (cps "123-45-6789")]);
       (cps "cost", VInt 8500)] in
  all_leaves (fun s => @unglued ascii_db (@reaches_phone ascii_db s)) x = true /\
  @redact ascii_db x
  = VDict
      [(cps "note",
        VStr (cps "call [REDACTED_PHONE] or [REDACTED_PHONE], mail [REDACTED_EMAIL]"));
       (cps "cards", VList [VStr (cps "[REDACTED_CC]");
                            VStr (cps "[REDACTED_SSN]")]);
       (cps "cost", VInt 8500)] /\
  @redact ascii_db (@redact ascii_db x) = @redact ascii_db x.
Proof.
  split; [reflexivity|]. split; [reflexivity|].
  apply (@redact_idempotent_unglued ascii_db). reflexivity.
Defined.

(** The literal examples of the known corpus all are in the class, the
    card numbers too; the run of twenty digits is not. *)
Lemma unglued_examples :
  (forall U : UnicodeDB,
      Forall (fun ex => @unglued U (@reaches_phone U (snd ex)) = true)
        known_corpus) /\
  (forall U : UnicodeDB, @unglued U (@reaches_phone U twenty_digits) = false).
Proof.
  split; intros U; [|vm_compute; reflexivity].
  unfold known_corpus.
  repeat (apply List.Forall_cons; [vm_compute; reflexivity|]).
  apply List.Forall_nil.
Qed.

(** ** The cache of the anonymizer *)

(** X5: asking again gives the same answer. Whatever the cache holds, a
    second call of [anonymize] with the same identifier and category, right
    after the first, returns what the first returned (the same token, or the
    same exception) and leaves the instance as the first call left it. *)
Theorem anonymize_again (self : PIIRedactor) (identifier category : pystr) :
  anonymize (snd (anonymize self identifier category)) identifier category
  = (fst (anonymize self identifier category),
     snd (anonymize self identifier category)).
Proof.
  unfold anonymize at 2 3 4.
  destruct (_anonymization_cache self !! (category ++ cps ":" ++ identifier))
    as [cached|] eqn:Hk; cbn [fst snd].
  - unfold anonymize. rewrite Hk. reflexivity.
  - destruct (str_encode identifier) as [bytes|e] eqn:He; cbn [fst snd].
    + unfold anonymize. cbn [_anonymization_cache].
      rewrite lookup_insert_eq. reflexivity.
    + unfold anonymize. rewrite Hk, He. reflexivity.
Qed.

(** X6: the cache only grows. A call of [anonymize] keeps [anonymize_names]
    and every entry the cache had; the only key it can add is
    "{category}:{identifier}", and when the call returns a token, that key
    holds this token afterwards. *)
Theorem anonymize_cache_grows (self : PIIRedactor) (identifier category : pystr) :
  let after := snd (anonymize self identifier category) in
  anonymize_names after = anonymize_names self /\
  (forall key token,
      _anonymization_cache self !! key = Some token ->
      _anonymization_cache after !! key = Some token) /\
  (forall key,
      key <> category ++ cps ":" ++ identifier ->
      _anonymization_cache after !! key = _anonymization_cache self !! key) /\
  (forall token,
      fst (anonymize self identifier category) = Ok token ->
      _anonymization_cache after !! (category ++ cps ":" ++ identifier)
      = Some token).
Proof.
  unfold anonymize.
  destruct (_anonymization_cache self !! (category ++ cps ":" ++ identifier))
    as [cached|] eqn:Hk; cbn [fst snd].
  - repeat split; auto. intros token [= <-]. exact Hk.
  - destruct (str_encode identifier) as [bytes|e]; cbn [fst snd].
    + cbn [anonymize_names _anonymization_cache]. repeat split.
      * intros key token Hkey. rewrite lookup_insert_ne; [exact Hkey|].
        intros <-. congruence.
      * intros key Hne. apply lookup_insert_ne. congruence.
      * intros token [= <-]. apply lookup_insert_eq.
    + repeat split; auto. discriminate.
Qed.

(** X7: with categories that hold no ":", the cache is a memoization and
    nothing more. On an instance that has only been called with such
    categories, every further call with such a category returns what a new
    instance returns for the same identifier and category. *)
Theorem anonymize_memoizes
    (names : bool) (self : PIIRedactor) (identifier category : pystr) :
  colon_free_run names self ->
  colon_free category = true ->
  fst (anonymize self identifier category)
  = fst (anonymize (new_redactor names) identifier category).
Proof. apply anonymize_pure_colon_free. Qed.

Lemma anonymize_memoizes_customers :
  let self :=
    snd (anonymize
           (snd (anonymize (new_redactor true) (cps "John Smith") (cps "customer")))
           (cps "eu:42") (cps "contractor")) in
  colon_free_run true self /\
  colon_free (cps "customer") = true /\
  fst (anonymize self (cps "eu:42") (cps "customer"))
  = fst (anonymize (new_redactor true) (cps "eu:42") (cps "customer")).
Proof.
  assert (Hrun : colon_free_run true
            (snd (anonymize
                    (snd (anonymize (new_redactor true)
                            (cps "John Smith") (cps "customer")))
                    (cps "eu:42") (cps "contractor")))).
  { apply run_call; [apply run_call; [apply run_new|]|]; reflexivity. }
  split; [exact Hrun|]. split; [reflexivity|].
  apply (anonymize_memoizes true _ (cps "eu:42") (cps "customer") Hrun).
  reflexivity.
Defined.

(** X8: [anonymize] raises in one case only. It raises UnicodeEncodeError
    exactly when the cache has no entry for the key and the identifier holds
    a surrogate code point; it raises no other exception; and a call that
    raises leaves the instance as it was (nothing is cached). *)
Theorem anonymize_raises_iff (self : PIIRedactor) (identifier category : pystr) :
  (fst (anonymize self identifier category) = Raise UnicodeEncodeError
     <-> _anonymization_cache self !! (category ++ cps ":" ++ identifier) = None
         /\ encodable identifier = false) /\
  (forall e, fst (anonymize self identifier category) = Raise e ->
             e = UnicodeEncodeError
             /\ snd (anonymize self identifier category) = self).
Proof.
  unfold anonymize.
  destruct (_anonymization_cache self !! (category ++ cps ":" ++ identifier))
    as [cached|] eqn:Hk; cbn [fst snd].
  - split; [split; [discriminate | intros [? _]; discriminate] | discriminate].
  - destruct (encodable identifier) eqn:Henc.
    + destruct (str_encode_encodable _ Henc) as [bytes ->]. cbn [fst snd].
      split; [split; [discriminate | intros [_ ?]; discriminate] | discriminate].
    + rewrite (str_encode_surrogate _ Henc). cbn [fst snd].
      split; [split; auto | intros e [= <-]; auto].
Qed.

(** ** Feedback signals *)

Section SignalFacts.
Context {U : UnicodeDB}.
Variable json_dumps : value -> checked pystr.
Variable json_loads : pystr -> checked value.

(** X10: what the decorator of [capture_signal] hands to the data lake when
    the import of [PIIRedactor] succeeds. [_redact_pii] returns a dict with
    the six keys of the signal in their order; its "data" is the redacted
    result of the wrapped function, its two ids are the redacted ids
    extracted from the call, its "model_version" is unchanged; and
    [_send_to_data_lake] finds "signal_type" and "timestamp" (no KeyError)
    and builds the object key from their redacted text. *)
Theorem wrapper_signal_redacted (signal_type timestamp date : pystr)
    (args : list value) (kwargs : list (pystr * value)) (result : value) :
  exists clean,
    _redact_pii json_dumps json_loads true
      (wrapper_signal signal_type timestamp args kwargs result)
    = Done (VDict clean)
    /\ List.map fst clean
       = [cps "signal_type"; cps "timestamp"; cps "workflow_id";
          cps "project_id"; cps "model_version"; cps "data"]
    /\ dict_get clean (cps "data") = Some (redact result)
    /\ dict_get clean (cps "workflow_id")
       = Some (redact (_extract_workflow_id args kwargs))
    /\ dict_get clean (cps "project_id")
       = Some (redact (_extract_project_id args kwargs))
    /\ dict_get clean (cps "model_version") = Some (VStr _get_model_version)
    /\ data_lake_key clean date
       = Done (cps "signals/" ++ _redact_string signal_type ++ cps "/" ++ date
               ++ cps "/" ++ _redact_string timestamp ++ cps ".json").
Proof.
  eexists. split; [reflexivity|].
  repeat split; vm_compute; reflexivity.
Qed.

Lemma envelope_get (a b c d e f : value) :
  let items := [(cps "signal_type", a); (cps "timestamp", b);
                (cps "workflow_id", c); (cps "project_id", d);
                (cps "model_version", e); (cps "data", f)] in
  dict_get items (cps "workflow_id") = Some c
  /\ dict_get items (cps "project_id") = Some d
  /\ dict_get items (cps "data") = Some f.
Proof. repeat split; vm_compute; reflexivity. Qed.

(** X11: [capture_manual_signal] builds the signal that the decorator builds
    for a call f(data) returning data; and after redaction the id in the
    envelope is still the id in the payload: when data has a "workflow_id"
    (a "project_id"), clean["workflow_id"] is clean["data"]["workflow_id"]. *)
Theorem manual_signal_consistent (signal_type timestamp : pystr)
    (data : list (pystr * value)) :
  manual_signal signal_type timestamp data
  = wrapper_signal signal_type timestamp [VDict data] [] (VDict data) /\
  forall key,
    key = cps "workflow_id" \/ key = cps "project_id" ->
    is_Some (dict_get data key) ->
    get_path (redact (manual_signal signal_type timestamp data)) [Key key]
    = get_path (redact (manual_signal signal_type timestamp data))
        [Key (cps "data"); Key key].
Proof.
  split; [reflexivity|].
  intros key Hkey [w Hw].
  rewrite !get_path_commutes. f_equal.
  unfold manual_signal. cbn [get_path].
  destruct (envelope_get (VStr signal_type) (VStr timestamp)
              (get_or_unknown data (cps "workflow_id"))
              (get_or_unknown data (cps "project_id"))
              (VStr _get_model_version) (VDict data)) as (Hwid & Hpid & Hdata).
  rewrite Hdata.
  destruct Hkey as [-> | ->]; [rewrite Hwid | rewrite Hpid];
    unfold get_or_unknown; rewrite Hw; reflexivity.
Qed.

(** X12: the fallback of [_redact_pii] (taken when the import fails) runs
    the email and the phone substitution only, on the text of
    json.dumps(signal), and hands the result to json.loads. On a text in
    which neither the ssn nor the credit_card pattern is found the
    substitutions give what [_redact_string] gives; a text in which neither
    the email nor the phone pattern is found they leave as it is, whatever
    else it holds. *)
Theorem fallback_substitutions_partial (signal_str : pystr) :
  (forall signal,
      json_dumps signal = Done signal_str ->
      _redact_pii json_dumps json_loads false signal
      = json_loads (fallback_substitutions signal_str)) /\
  (search ssn_pattern signal_str = None ->
   search credit_card_pattern signal_str = None ->
   fallback_substitutions signal_str = _redact_string signal_str) /\
  (search email_pattern signal_str = None ->
   search phone_pattern signal_str = None ->
   fallback_substitutions signal_str = signal_str).
Proof.
  split; [intros signal H; unfold _redact_pii; rewrite H; reflexivity|].
  unfold fallback_substitutions. split.
  - intros Hssn Hcc. rewrite _redact_string_unfold.
    rewrite (sub_no_match ssn_pattern _ _ Hssn).
    rewrite (sub_no_match credit_card_pattern _ _ Hcc). reflexivity.
  - intros Hemail Hphone.
    rewrite (sub_no_match email_pattern _ _ Hemail).
    apply (sub_no_match phone_pattern _ _ Hphone).
Qed.

End SignalFacts.

(** ** The provenance store *)

Lemma filter_filter_andb {A} (f g : A -> bool) (l : list A) :
  List.filter f (List.filter g l) = List.filter (fun x => g x && f x) l.
Proof.
  induction l as [|x l IH]; simpl; [reflexivity|].
  destruct (g x); simpl; [destruct (f x)|]; rewrite IH; reflexivity.
Qed.

Lemma filter_true {A} (f : A -> bool) (l : list A) :
  (forall x, f x = true) -> List.filter f l = l.
Proof.
  intros Hf. induction l as [|x l IH]; simpl; [reflexivity|].
  rewrite Hf, IH. reflexivity.
Qed.

(** A comprehension that ends without an exception kept what passed its
    test. *)
Lemma keep_if_done test (comp : list (pystr * value) -> bool) :
  forall results kept,
    (forall p b, test p = Done b -> b = comp p) ->
    keep_if test results = Done kept ->
    kept = List.filter comp results.
Proof.
  induction results as [|p rest IH]; intros kept Hc; simpl.
  - intros [= <-]. reflexivity.
  - destruct (test p) as [b|e] eqn:Hp; [|discriminate].
    destruct (keep_if test rest) as [k|e] eqn:Hrest; [|discriminate].
    intros [= <-]. rewrite <- (Hc p b Hp), (IH k Hc eq_refl).
    reflexivity.
Qed.

Lemma keep_if_total test :
  forall results,
    Forall (fun p => exists b, test p = Done b) results ->
    exists kept, keep_if test results = Done kept.
Proof.
  induction 1 as [|p rest [b Hp] _ [kept IH]]; simpl; [eauto|].
  rewrite Hp, IH. eauto.
Qed.

Lemma keep_if_fail test e :
  forall results p,
    In p results ->
    test p = Fail e ->
    (forall q e', test q = Fail e' -> e' = e) ->
    keep_if test results = Fail e.
Proof.
  induction results as [|q rest IH]; intros p Hin Hp Hall; [contradiction|].
  simpl. destruct (test q) as [b|e'] eqn:Hq.
  - destruct Hin as [-> | Hin]; [congruence|].
    rewrite (IH p Hin Hp Hall). reflexivity.
  - rewrite (Hall q e' Hq). reflexivity.
Qed.

Lemma keep_if_sub test :
  forall results kept,
    keep_if test results = Done kept ->
    forall p, In p kept -> In p results.
Proof.
  induction results as [|q rest IH]; simpl; intros kept.
  - intros [= <-] p [].
  - destruct (test q) as [b|e]; [|discriminate].
    destruct (keep_if test rest) as [k|e] eqn:Hrest; [|discriminate].
    intros [= <-] p Hp. destruct b.
    + destruct Hp as [->|Hp]; [left; reflexivity|].
      right. apply (IH k eq_refl p Hp).
    + right. apply (IH k eq_refl p Hp).
Qed.

(** The three tests of [query], against the three parts of [passes]. *)
Lemma entry_equals_passes d p b :
  entry_equals p (cps "function") d = Done b ->
  b = match dict_get p (cps "function") with
      | Some (VStr f) => bool_decide (f = d)
      | _ => false
      end.
Proof.
  unfold entry_equals.
  destruct (dict_get p (cps "function")) as [[]|]; intros [= <-]; reflexivity.
Qed.

Lemma entry_compares_passes at_least t p b :
  entry_compares at_least p (cps "timestamp") t = Done b ->
  b = match dict_get p (cps "timestamp") with
      | Some (VStr s) => if at_least then str_le t s else str_le s t
      | _ => false
      end.
Proof.
  unfold entry_compares.
  destruct (dict_get p (cps "timestamp")) as [[]|]; intros [= <-]; reflexivity.
Qed.

(** One filter of [query]: skipped when the argument is None or empty. *)
Lemma stage_done (arg : option pystr)
    (test : pystr -> list (pystr * value) -> checked bool)
    (comp : pystr -> list (pystr * value) -> bool) results kept :
  (forall t p b, test t p = Done b -> b = comp t p) ->
  match given arg with
  | Some t => keep_if (test t) results
  | None => Done results
  end = Done kept ->
  kept = List.filter
           (fun p => match given arg with Some t => comp t p | None => true end)
           results.
Proof.
  intros Hc. destruct (given arg) as [t|].
  - apply keep_if_done, Hc.
  - intros [= <-]. symmetry. apply filter_true. reflexivity.
Qed.

Lemma query_done_filter (provenance_store : list (list (pystr * value)))
    (workflow_id decision_type start_time end_time : option pystr)
    (results : list (list (pystr * value))) :
  query provenance_store workflow_id decision_type start_time end_time
  = Done results ->
  results = List.filter (passes decision_type start_time end_time) provenance_store.
Proof.
  unfold query. cbv zeta. intros H.
  destruct (match given decision_type with
            | Some d => keep_if (fun p => entry_equals p (cps "function") d)
                          provenance_store
            | None => Done provenance_store
            end) as [r1|] eqn:H1; [|discriminate].
  destruct (match given start_time with
            | Some t => keep_if (fun p => entry_compares true p (cps "timestamp") t) r1
            | None => Done r1
            end) as [r2|] eqn:H2; [|discriminate].
  apply (stage_done decision_type
           (fun d p => entry_equals p (cps "function") d) _ _ _
           (fun d p b => entry_equals_passes d p b)) in H1.
  apply (stage_done start_time
           (fun t p => entry_compares true p (cps "timestamp") t) _ _ _
           (fun t p b => entry_compares_passes true t p b)) in H2.
  apply (stage_done end_time
           (fun t p => entry_compares false p (cps "timestamp") t) _ _ _
           (fun t p b => entry_compares_passes false t p b)) in H.
  subst. rewrite !filter_filter_andb. unfold passes.
  apply List.filter_ext. intros p. apply andb_assoc.
Qed.

Lemma well_formed_tests p :
  well_formed_record p ->
  forall d,
    (exists b, entry_equals p (cps "function") d = Done b)
    /\ (forall at_least,
           exists b, entry_compares at_least p (cps "timestamp") d = Done b).
Proof.
  intros [[f Hf] [t Ht]] d. unfold entry_equals, entry_compares.
  rewrite Hf, Ht. eauto.
Qed.

Lemma stage_total (arg : option pystr)
    (test : pystr -> list (pystr * value) -> checked bool) results :
  Forall well_formed_record results ->
  (forall t p, well_formed_record p -> exists b, test t p = Done b) ->
  exists kept,
    match given arg with
    | Some t => keep_if (test t) results
    | None => Done results
    end = Done kept
    /\ Forall well_formed_record kept.
Proof.
  intros Hwf Ht. destruct (given arg) as [t|]; [|eauto].
  destruct (keep_if_total (test t) results) as [kept Hk].
  { eapply Forall_impl; [exact Hwf|]. intros p Hp. apply Ht, Hp. }
  exists kept. split; [exact Hk|].
  rewrite List.Forall_forall in *. intros p Hp.
  apply Hwf. eapply keep_if_sub; eauto.
Qed.

Lemma query_total (provenance_store : list (list (pystr * value)))
    (workflow_id decision_type start_time end_time : option pystr) :
  Forall well_formed_record provenance_store ->
  exists results,
    query provenance_store workflow_id decision_type start_time end_time
    = Done results.
Proof.
  intros Hwf. unfold query. cbv zeta.
  destruct (stage_total decision_type
              (fun d p => entry_equals p (cps "function") d) _ Hwf)
    as (r1 & -> & Hwf1).
  { intros t p Hp. apply (well_formed_tests p Hp t). }
  destruct (stage_total start_time
              (fun t p => entry_compares true p (cps "timestamp") t) _ Hwf1)
    as (r2 & -> & Hwf2).
  { intros t p Hp. apply (well_formed_tests p Hp t). }
  destruct (stage_total end_time
              (fun t p => entry_compares false p (cps "timestamp") t) _ Hwf2)
    as (r3 & -> & _).
  { intros t p Hp. apply (well_formed_tests p Hp t). }
  eauto.
Qed.

(** X13: what [query] returns. Whenever [query] returns (no exception), the
    result is the list of the stored records that pass every filter given,
    in the order of the store: "function" equal to [decision_type],
    "timestamp" at least [start_time] and at most [end_time] as strings.
    A filter that is None or the empty string asks nothing. *)
Theorem query_is_filter (provenance_store : list (list (pystr * value)))
    (workflow_id decision_type start_time end_time : option pystr)
    (results : list (list (pystr * value))) :
  query provenance_store workflow_id decision_type start_time end_time
  = Done results ->
  results = List.filter (passes decision_type start_time end_time) provenance_store.
Proof. apply query_done_filter. Qed.

(** X14: on a store whose records all have a str under "function" and a
    str under "timestamp" (what the wrapper of [track_decision] stores),
    [query] raises nothing, whatever the filters, and returns the records
    that pass them. *)
Theorem query_well_formed (provenance_store : list (list (pystr * value)))
    (workflow_id decision_type start_time end_time : option pystr) :
  Forall well_formed_record provenance_store ->
  query provenance_store workflow_id decision_type start_time end_time
  = Done (List.filter (passes decision_type start_time end_time) provenance_store).
Proof.
  intros Hwf.
  destruct (query_total provenance_store workflow_id decision_type
              start_time end_time Hwf) as [results H].
  rewrite H. f_equal. eapply query_done_filter, H.
Qed.

(** X16: with a [decision_type] filter, a stored record without a
    "function" entry makes [query] raise KeyError('function'). *)
Theorem query_key_error (provenance_store : list (list (pystr * value)))
    (workflow_id decision_type start_time end_time : option pystr)
    (p : list (pystr * value)) :
  In p provenance_store ->
  dict_get p (cps "function") = None ->
  given decision_type <> None ->
  query provenance_store workflow_id decision_type start_time end_time
  = Fail (KeyError (cps "function")).
Proof.
  intros Hin Hp Hd. unfold query. cbv zeta.
  destruct (given decision_type) as [d|]; [|congruence].
  rewrite (keep_if_fail _ (KeyError (cps "function")) provenance_store p Hin).
  - reflexivity.
  - unfold entry_equals. rewrite Hp. reflexivity.
  - intros q e'. unfold entry_equals.
    destruct (dict_get q (cps "function")) as [[]|]; congruence.
Qed.

Lemma query_is_filter_decisions :
  let store :=
    [[(cps "function", VStr (cps "estimate_cost"));
      (cps "timestamp", VStr (cps "2024-01-15T10:30:00"))];
     [(cps "function", VStr (cps "schedule_crew"));
      (cps "timestamp", VStr (cps "2024-02-01T08:00:00"))]] in
  let kept :=
    [[(cps "function", VStr (cps "estimate_cost"));
      (cps "timestamp", VStr (cps "2024-01-15T10:30:00"))]] in
  query store None (Some (cps "estimate_cost")) (Some (cps "2024-01-01")) None
  = Done kept /\
  kept = List.filter
           (passes (Some (cps "estimate_cost")) (Some (cps "2024-01-01")) None)
           store.
Proof.
  split; [reflexivity|].
  apply (query_is_filter _ None (Some (cps "estimate_cost"))
           (Some (cps "2024-01-01")) None).
  reflexivity.
Defined.

Lemma query_well_formed_decisions :
  let store :=
    [[(cps "function", VStr (cps "estimate_cost"));
      (cps "timestamp", VStr (cps "2024-01-15T10:30:00"))];
     [(cps "function", VStr (cps "schedule_crew"));
      (cps "timestamp", VStr (cps "2024-02-01T08:00:00"))]] in
  Forall well_formed_record store /\
  query store None None None (Some (cps "2024-01-31"))
  = Done (List.filter (passes None None (Some (cps "2024-01-31"))) store).
Proof.
  assert (Hwf : Forall well_formed_record
            [[(cps "function", VStr (cps "estimate_cost"));
              (cps "timestamp", VStr (cps "2024-01-15T10:30:00"))];
             [(cps "function", VStr (cps "schedule_crew"));
              (cps "timestamp", VStr (cps "2024-02-01T08:00:00"))]]).
  { repeat apply List.Forall_cons; try apply List.Forall_nil;
      split; eexists; reflexivity. }
  split; [exact Hwf|].
  apply (query_well_formed _ None None None (Some (cps "2024-01-31")) Hwf).
Defined.

Lemma query_key_error_unnamed :
  let p := [(cps "timestamp", VStr (cps "2024-01-15T10:30:00"))] in
  In p [p] /\
  dict_get p (cps "function") = None /\
  given (Some (cps "estimate_cost")) <> None /\
  query [p] None (Some (cps "estimate_cost")) None None
  = Fail (KeyError (cps "function")).
Proof.
  split; [left; reflexivity|]. split; [reflexivity|].
  split; [vm_compute; discriminate|].
  apply (query_key_error _ None (Some (cps "estimate_cost")) None None
           [(cps "timestamp", VStr (cps "2024-01-15T10:30:00"))]).
  - left. reflexivity.
  - reflexivity.
  - vm_compute. discriminate.
Defined.

(** ** The text of a provenance record *)

Section FormatFacts.
Context {U : UnicodeDB}.

Lemma join_length_le (sep : pystr) (n : nat) (parts : list pystr) :
  Forall (fun part => (List.length part <= n)%nat) parts ->
  (List.length (join sep parts)
   <= (n + List.length sep) * List.length parts)%nat.
Proof.
  induction 1 as [|x rest Hx Hrest IH]; simpl; [lia|].
  destruct rest as [|y rest]; [simpl; nia|].
  rewrite !length_app. simpl List.length in *. nia.
Qed.

Lemma filter_sublist {A} (f : A -> bool) (l : list A) :
  sublist (List.filter f l) l.
Proof.
  induction l as [|x l IH]; simpl; [constructor|].
  destruct (f x); [apply sublist_skip | apply sublist_cons]; exact IH.
Qed.

(** X17: the decision text is bounded unless the result is a dict. For a
    result that is not a dict, [_format_decision] gives the function name,
    " returned: " and the first 100 characters of str(result): the text
    shown is the start of str(result), of length 100 or the whole length if
    that is less, so all of str(result) when it has no more than 100. For a
    dict it gives " decided: " and the dict of the entries whose key is
    total_cost, status, approved or recommended, in the order of the result
    and without a cut. *)
Theorem _format_decision_text (func_name : pystr) (result : value) :
  match result with
  | VDict items =>
      exists summary,
        _format_decision func_name result
        = func_name ++ cps " decided: " ++ str_value (VDict summary)
        /\ sublist summary items
        /\ Forall (fun kv => In (fst kv) decision_keys) summary
        /\ (forall kv, In kv items -> In (fst kv) decision_keys -> In kv summary)
  | _ =>
      (exists shown cut,
          _format_decision func_name result
          = func_name ++ cps " returned: " ++ shown
          /\ str_value result = shown ++ cut
          /\ List.length shown = Nat.min 100 (List.length (str_value result)))
      /\ (List.length (_format_decision func_name result)
          <= List.length func_name + 111)%nat
      /\ ((List.length (str_value result) <= 100)%nat ->
          _format_decision func_name result
          = func_name ++ cps " returned: " ++ str_value result)
  end.
Proof.
  assert (Hother : forall text : pystr,
    (exists shown cut,
        func_name ++ cps " returned: " ++ firstn 100 text
        = func_name ++ cps " returned: " ++ shown
        /\ text = shown ++ cut
        /\ List.length shown = Nat.min 100 (List.length text))
    /\ (List.length (func_name ++ cps " returned: " ++ firstn 100 text)
        <= List.length func_name + 111)%nat
    /\ ((List.length text <= 100)%nat ->
        func_name ++ cps " returned: " ++ firstn 100 text
        = func_name ++ cps " returned: " ++ text)).
  { intros text. split; [|split].
    - exists (firstn 100 text), (skipn 100 text).
      split; [reflexivity|]. split.
      + symmetry. apply firstn_skipn.
      + apply length_firstn.
    - rewrite !length_app, length_firstn.
      change (List.length (cps " returned: ")) with 11%nat. lia.
    - intros Hlen. rewrite firstn_all2 by exact Hlen. reflexivity. }
  destruct result; try apply Hother.
  exists (List.filter (fun kv => bool_decide (fst kv ∈ decision_keys)) items).
  split; [reflexivity|]. split; [apply filter_sublist|]. split.
  - apply List.Forall_forall. intros kv Hkv.
    apply List.filter_In in Hkv as [_ Hkv].
    apply bool_decide_eq_true_1 in Hkv. apply list_elem_of_In, Hkv.
  - intros kv Hin Hkey. apply List.filter_In. split; [exact Hin|].
    apply bool_decide_eq_true_2, list_elem_of_In, Hkey.
Qed.

(** X18: the data sources of a record are bounded in the arguments. The
    dict has the keys "function_signature" and "kwargs"; "kwargs" has the
    keys of the keyword arguments in their order, each with a str of at most
    50 characters; and the signature is no longer than the function name
    plus 2 plus 52 characters for each positional argument. *)
Theorem _identify_data_sources_bounded (func_name : pystr)
    (args : list value) (kwargs : list (pystr * value)) :
  exists signature shown,
    _identify_data_sources func_name args kwargs
    = VDict [(cps "function_signature", VStr signature);
             (cps "kwargs", VDict shown)]
    /\ (List.length signature
        <= List.length func_name + 2 + 52 * List.length args)%nat
    /\ List.map fst shown = List.map fst kwargs
    /\ Forall (fun kv => exists text,
                   snd kv = VStr text /\ (List.length text <= 50)%nat)
         shown.
Proof.
  eexists. eexists. split; [reflexivity|]. split; [|split].
  - rewrite !length_app.
    change (List.length (cps "(")) with 1%nat.
    change (List.length (cps ")")) with 1%nat.
    pose proof (join_length_le (cps ", ") 50
                  (List.map (fun a => firstn 50 (str_value a)) args)) as H.
    rewrite length_map in H.
    change (List.length (cps ", ")) with 2%nat in H.
    assert (Forall (fun part : pystr => (List.length part <= 50)%nat)
              (List.map (fun a => firstn 50 (str_value a)) args)) as Hparts.
    { apply List.Forall_forall. intros part Hpart.
      apply List.in_map_iff in Hpart as (a & <- & _).
      rewrite length_firstn. lia. }
    specialize (H Hparts). lia.
  - rewrite List.map_map. reflexivity.
  - apply List.Forall_forall. intros kv Hkv.
    apply List.in_map_iff in Hkv as (kv' & <- & _).
    eexists. split; [reflexivity|]. rewrite length_firstn. lia.
Qed.

End FormatFacts.

(** ** Plain records pass the gate *)

Section PlainGate.
Context {U : UnicodeDB}.

Lemma plain_report data :
  plain (str_value data) = true ->
  get_pii_report data
  = {| pii_detected := false; pii_types := []; details := [] |}.
Proof.
  intros Hs. unfold get_pii_report.
  assert (Hnone :
    flat_map
      (fun kv =>
         match findall (snd kv) (str_value data) with
         | [] => []
         | _ :: _ =>
             [(fst kv,
               {| count := List.length (findall (snd kv) (str_value data));
                  examples := firstn 3 (findall (snd kv) (str_value data)) |})]
         end) PATTERNS = []).
  { generalize PATTERNS_demand. generalize PATTERNS as ps.
    induction ps as [|[name p] ps IH]; intros Hd; [reflexivity|].
    inversion Hd as [|? ? Hp Hps]; subst. simpl in Hp.
    cbn [flat_map fst snd]. unfold findall at 1.
    rewrite (findall_from_no_match p _ None
               (search_from_demands pii_char p Hp _ None Hs)).
    apply IH, Hps. }
  cbv zeta. rewrite Hnone. reflexivity.
Qed.

(** X19: a record whose text str(data) holds no decimal digit and no "@"
    always passes the gate: [validate_data_for_storage] returns compliant,
    with no issue and an empty report, and [validate_no_pii] is True. *)
Theorem plain_record_compliant (data : value) :
  plain (str_value data) = true ->
  validate_data_for_storage data
  = {| compliant := true;
       issues := [];
       pii_report := {| pii_detected := false; pii_types := []; details := [] |} |}
  /\ validate_no_pii data = true.
Proof.
  intros Hs. split.
  - unfold validate_data_for_storage. rewrite (plain_report data Hs).
    reflexivity.
  - apply (plain_clean (str_value data)) in Hs.
    unfold clean, validate_no_pii, detect_pii in *. exact Hs.
Qed.

End PlainGate.

Lemma plain_record_compliant_note :
  let data := VDict [(cps "note", VStr (cps "Customer prefers morning visits"));
                     (cps "approved", VBool true)] in
  @plain ascii_db (@str_value ascii_db data) = true /\
  @validate_data_for_storage ascii_db data
  = {| compliant := true;
       issues := [];
       pii_report := {| pii_detected := false; pii_types := []; details := [] |} |}
  /\ @validate_no_pii ascii_db data = true.
Proof.
  split; [reflexivity|].
  apply (@plain_record_compliant ascii_db). reflexivity.
Defined.
